(** * Generational slot maps: [SlotMap] and [SecondaryMap]

    A shallow embedding of [src/lib.ts], and of the doubly-linked list of
    [examples/doubly-linked-list.ts] that is built on it.

    Conventions of the embedding.
    - A TypeScript [number] that holds a generation is an integer [Z]. Its
      arithmetic is exact up to 2^53, and [2^53 + 1] is [2^53] again:
      [number_succ] is the [+= 1] of [remove]. The remainder [%] of
      JavaScript truncates towards zero, so it is [Z.rem].
    - A [number] that holds a slot index is a [nat]. An index below
      [2^32 - 1] is an array index; an assignment at any other index makes
      a plain property of the array object and leaves its length alone.
    - A method that mutates [this.store] takes the store and returns the new
      store next to its result.
    - The result type [null | C] is [option C], with [None] for [null]: the
      component type [C] is read as a type without [null].
    - A generator ([iter]) is the list of the values it yields when it is run
      to its end on an unchanged store.
    - A component that is an object (a node of the list) lives in the slot
      that holds it: an assignment to a field of the object that [get]
      returned is an update of that slot. *)

From Stdlib Require Import ZArith.Zquot.
From stdpp Require Import base list numbers sorting strings gmap.

(** type Generation = number; type Idx = number; type Entity = [Generation, Idx] *)
Abbreviation Generation := Z (only parsing).
Abbreviation Idx := nat (only parsing).
Abbreviation Entity := (Z * nat)%type (only parsing).

(** ** The primary arena *)

Module SlotMap.
Section SlotMap.

Context {C : Type}.

(** private store: Array<[Generation, C]> *)
Abbreviation slot := (Generation * C)%type (only parsing).
Abbreviation store := (list slot) (only parsing).

(** The test [slot[0] % 2 === 0] of [iter]; [insert] tests its negation. *)
Definition even_generation (g : Generation) : bool := (Z.rem g 2 =? 0)%Z.

(** The body of the [for ... of] loop of [iter], [idx] counting the slots. *)
Fixpoint iter_from (idx : Idx) (st : store) : list (Entity * C) :=
  match st with
  | [] => []
  | slot :: rest =>
      if even_generation slot.1
      then ((slot.1, idx), slot.2) :: iter_from (idx + 1) rest
      else iter_from (idx + 1) rest
  end.

Definition iter (st : store) : list (Entity * C) := iter_from 0 st.

(** [for (const _ of this.iter()) return false; return true] *)
Definition is_empty (st : store) : bool :=
  match iter st with
  | _ :: _ => false
  | [] => true
  end.

(** [let len = 0; for (const _ of this.iter()) len += 1; return len] *)
Definition len (st : store) : nat :=
  fold_left (fun len _ => len + 1) (iter st) 0.

(** [const slot = this.store[entity[1]]]
    [return (slot && entity[0] == slot[0]) ? slot[1] : null] *)
Definition get (st : store) (entity : Entity) : option C :=
  match st !! entity.2 with
  | Some slot => if (entity.1 =? slot.1)%Z then Some slot.2 else None
  | None => None
  end.

(** The loop of [insert]: [inl] is the early [return] from inside the loop,
    with the store as the assignment to the slot left it; [inr] is the value
    of [idx] when the loop ends without it. *)
Fixpoint insert_loop (comp : C) (idx : Idx) (st : store)
  : (Entity * store) + Idx :=
  match st with
  | [] => inr idx
  | slot :: rest =>
      if negb (even_generation slot.1)
      then inl ((slot.1 + 1, idx)%Z, ((slot.1 + 1)%Z, comp) :: rest)
      else match insert_loop comp (idx + 1) rest with
           | inl (entity, rest') => inl (entity, slot :: rest')
           | inr idx' => inr idx'
           end
  end.

(** After the loop: [this.store.push([0, comp]); return [0, idx]] *)
Definition insert (st : store) (comp : C) : Entity * store :=
  match insert_loop comp 0 st with
  | inl r => r
  | inr idx => ((0%Z, idx), st ++ [(0%Z, comp)])
  end.

(** The greatest generation: 2^53. Every integer up to it is a [number], and
    [2^53 + 1] is not: the sum rounds back to 2^53. *)
Definition max_generation : Z := 9007199254740992.

(** [g + 1] on a [number] that holds a generation, for the generations that
    public operations can store, which are those from 0 to 2^53: the exact
    sum below 2^53, and 2^53 again at 2^53. ([insert] adds 1 to an odd
    generation only; an odd [number] is below 2^53, where the sum is
    exact.) *)
Definition number_succ (g : Generation) : Generation :=
  if decide (g < max_generation)%Z then (g + 1)%Z else g.

(** [remove]: on a valid entity [slot[0] += 1] and the component is returned;
    the component stays in the slot. *)
Definition remove (st : store) (entity : Entity) : option C * store :=
  match st !! entity.2 with
  | Some slot =>
      if (entity.1 =? slot.1)%Z
      then (Some slot.2, <[entity.2 := (number_succ slot.1, slot.2)]> st)
      else (None, st)
  | None => (None, st)
  end.

(** The public operations, and the store after one of them and after a
    sequence of them. *)
Inductive op : Type :=
  | Insert (comp : C)
  | Remove (entity : Entity)
  | Get (entity : Entity)
  | Iter
  | Len
  | IsEmpty.

Definition step (st : store) (o : op) : store :=
  match o with
  | Insert comp => (insert st comp).2
  | Remove entity => (remove st entity).2
  | Get _ | Iter | Len | IsEmpty => st
  end.

Definition run (ops : list op) (st : store) : store := fold_left step ops st.

(** The stores a program can build: from [new SlotMap()] by public
    operations. *)
Inductive reachable : store → Prop :=
  | reachable_new : reachable []
  | reachable_step st o : reachable st → reachable (step st o).

(** The words of the documentation: "A slot is considered vacant when the
    generation number is odd." *)
Definition vacant (s : slot) : Prop := Z.odd s.1 = true.
Definition occupied (s : slot) : Prop := Z.even s.1 = true.

End SlotMap.
End SlotMap.

(** ** The secondary map *)

Module SecondaryMap.
Section SecondaryMap.

Context {C : Type}.

(** An element of [Array<null | [Generation, C]>]: an index below [length]
    that was never assigned is a hole, which reads as [undefined]. *)
Inductive cell : Type :=
  | Hole
  | Null
  | Full (slot : Generation * C).

(** private store: the array object, with its elements, and with the plain
    properties that assignments at indices that are no array indices make. *)
Record store : Type := { elems : list cell; props : gmap nat cell }.

(** [new SecondaryMap()]: [store = []] *)
Definition new : store := {| elems := []; props := ∅ |}.

(** The array indices are the integers from 0 to 2^32 - 2. *)
Definition array_limit : Z := 4294967295.

Definition array_index (i : Idx) : Prop := (Z.of_nat i < array_limit)%Z.

#[global] Instance array_index_dec (i : Idx) : Decision (array_index i) :=
  Z_lt_dec (Z.of_nat i) array_limit.

(** [a[i]] for an array index: [undefined] at or beyond [a.length]. *)
Definition array_get (a : list cell) (i : Idx) : cell := default Hole (a !! i).

(** [a[i] = x] for an array index: beyond [a.length] the array grows to
    length [i + 1] and the indices in between are holes. *)
Definition array_set (a : list cell) (i : Idx) (x : cell) : list cell :=
  if decide (i < length a) then <[i := x]> a
  else a ++ replicate (i - length a) Hole ++ [x].

(** The own property [i] of the array object, if it has one: an element for
    an array index, a plain property otherwise. *)
Definition cell_at (st : store) (i : Idx) : option cell :=
  if decide (array_index i) then elems st !! i else props st !! i.

(** [this.store[i]]: [undefined] when the object has no such property. *)
Definition store_get (st : store) (i : Idx) : cell :=
  default Hole (cell_at st i).

(** [this.store[i] = x]: for an array index the element is written and the
    array grows as needed; otherwise the property [i] is written and the
    array is left as it is. *)
Definition store_set (st : store) (i : Idx) (x : cell) : store :=
  if decide (array_index i)
  then {| elems := array_set (elems st) i x; props := props st |}
  else {| elems := elems st; props := <[i := x]> (props st) |}.

(** [Array.prototype.fill(value, start, end)] for arguments that are not
    negative: [k = min(start, len)], [final = min(end, len)], and
    [a[k] = value] while [k < final]. *)
Fixpoint fill_loop (value : cell) (k count : nat) (a : list cell) : list cell :=
  match count with
  | 0 => a
  | S count' => fill_loop value (S k) count' (<[k := value]> a)
  end.

Definition fill (a : list cell) (value : cell) (start end_ : nat) : list cell :=
  let len := length a in
  let k := start `min` len in
  let final := end_ `min` len in
  fill_loop value k (final - k) a.

(** [if (length >= entity[1]) this.store.fill(null, length, entity[1])]
    [this.store[entity[1]] = [entity[0], comp]] *)
Definition insert (st : store) (entity : Entity) (comp : C) : store :=
  let length := length (elems st) in
  let st' := if decide (entity.2 ≤ length)
             then {| elems := fill (elems st) Null length entity.2;
                     props := props st |}
             else st in
  store_set st' entity.2 (Full (entity.1, comp)).

(** [return (slot && entity[0] === slot[0]) ? slot[1] : null] *)
Definition get (st : store) (entity : Entity) : option C :=
  match store_get st entity.2 with
  | Full slot => if (entity.1 =? slot.1)%Z then Some slot.2 else None
  | Hole | Null => None
  end.

(** [remove]: on a valid entity [this.store[entity[1]] = null]. *)
Definition remove (st : store) (entity : Entity) : option C * store :=
  match store_get st entity.2 with
  | Full slot =>
      if (entity.1 =? slot.1)%Z
      then (Some slot.2, store_set st entity.2 Null)
      else (None, st)
  | Hole | Null => (None, st)
  end.

(** [for (const slot of this.store)] visits every index below [length], a
    hole as [undefined], and no plain property; [if (slot)] passes the filled
    cells only. *)
Fixpoint iter_from (idx : Idx) (a : list cell) : list (Entity * C) :=
  match a with
  | [] => []
  | Full slot :: rest => ((slot.1, idx), slot.2) :: iter_from (idx + 1) rest
  | (Hole | Null) :: rest => iter_from (idx + 1) rest
  end.

Definition iter (st : store) : list (Entity * C) := iter_from 0 (elems st).

Definition is_empty (st : store) : bool :=
  match iter st with
  | _ :: _ => false
  | [] => true
  end.

Definition len (st : store) : nat :=
  fold_left (fun len _ => len + 1) (iter st) 0.

(** The public operations and the store after one of them. *)
Inductive op : Type :=
  | Insert (entity : Entity) (comp : C)
  | Remove (entity : Entity)
  | Get (entity : Entity)
  | Iter
  | Len
  | IsEmpty.

Definition step (st : store) (o : op) : store :=
  match o with
  | Insert entity comp => insert st entity comp
  | Remove entity => (remove st entity).2
  | Get _ | Iter | Len | IsEmpty => st
  end.

(** What [if (slot)] tests. *)
Definition truthy (x : cell) : bool :=
  match x with
  | Full _ => true
  | Hole | Null => false
  end.

(** The first index that is no array index: 2^32 - 1. *)
Definition first_plain_index : Idx := Z.to_nat array_limit.

End SecondaryMap.
End SecondaryMap.

(** ** Sequences of operations on the secondary map *)

Module SecondaryRun.
Section SecondaryRun.

Context {C : Type}.

Definition run (ops : list (@SecondaryMap.op C)) (st : @SecondaryMap.store C)
  : @SecondaryMap.store C :=
  fold_left SecondaryMap.step ops st.

(** One more than the highest array index that an [insert] of the sequence
    names, and 0 when it has none: the documentation has "The array will
    always be as highest entity ID that was stored." *)
Fixpoint high_water (ops : list (@SecondaryMap.op C)) : nat :=
  match ops with
  | [] => 0
  | SecondaryMap.Insert entity _ :: ops' =>
      if decide (SecondaryMap.array_index entity.2)
      then (entity.2 + 1) `max` high_water ops'
      else high_water ops'
  | _ :: ops' => high_water ops'
  end.

End SecondaryRun.
End SecondaryRun.

(** ** The doubly-linked list of the examples, a client of the arena *)

Module DList.
Section DList.

Context {T : Type}.

(** type ListKey = null | Entity *)
Abbreviation ListKey := (option (Z * nat)) (only parsing).

(** interface Node<T> { value: T, prev: ListKey, next: ListKey } *)
Record Node : Type := { value : T; prev : ListKey; next : ListKey }.

(** class List<T> { private map: SlotMap<Node<T>>; tail: ListKey; head: ListKey } *)
Record List : Type :=
  { map : list (Z * Node); tail : ListKey; head : ListKey }.

(** [new List()]: an empty map, [tail = null], [head = null]. *)
Definition new : List := {| map := []; tail := None; head := None |}.

(** A node is an object, and [this.map.get(key)] returns the very object that
    the slot [key[1]] holds: an assignment to a field of the node that [get]
    returned for [key] is an update of the component of that slot. Every node
    is created by one [push_head] or [push_tail] and handed to one [insert],
    so no other slot holds it. *)
Definition set_prev (m : list (Z * Node)) (key : Z * nat) (k : ListKey)
  : list (Z * Node) :=
  alter (λ slot, (slot.1, {| value := value slot.2; prev := k;
                             next := next slot.2 |})) key.2 m.

Definition set_next (m : list (Z * Node)) (key : Z * nat) (k : ListKey)
  : list (Z * Node) :=
  alter (λ slot, (slot.1, {| value := value slot.2; prev := prev slot.2;
                             next := k |})) key.2 m.

(** [len(): return this.map.len()] *)
Definition len (l : List) : nat := SlotMap.len (map l).

(** [const k = this.map.insert({value, prev: null, next: this.head})]
    [const oldHead = this.head && this.map.get(this.head)]
    [if (oldHead !== null) oldHead.prev = k else this.tail = k]
    [this.head = k; return k] *)
Definition push_head (l : List) (v : T) : (Z * nat) * List :=
  let '(k, m) :=
    SlotMap.insert (map l) {| value := v; prev := None; next := head l |} in
  match head l with
  | Some h =>
      match SlotMap.get m h with
      | Some oldHead =>
          (k, {| map := set_prev m h (Some k); tail := tail l; head := Some k |})
      | None => (k, {| map := m; tail := Some k; head := Some k |})
      end
  | None => (k, {| map := m; tail := Some k; head := Some k |})
  end.

(** [const k = this.map.insert({ value, prev: this.tail, next: null })]
    [const oldTail = this.tail && this.map.get(this.tail)]
    [if (oldTail !== null) oldTail.next = k else this.head = k]
    [this.tail = k; return k] *)
Definition push_tail (l : List) (v : T) : (Z * nat) * List :=
  let '(k, m) :=
    SlotMap.insert (map l) {| value := v; prev := tail l; next := None |} in
  match tail l with
  | Some t =>
      match SlotMap.get m t with
      | Some oldTail =>
          (k, {| map := set_next m t (Some k); tail := Some k; head := head l |})
      | None => (k, {| map := m; tail := Some k; head := Some k |})
      end
  | None => (k, {| map := m; tail := Some k; head := Some k |})
  end.

(** [if (!this.head) return null]
    [const oldHead = this.map.remove(this.head)]
    [if (oldHead) { this.head = oldHead.next; return oldHead.value }]
    [return null] *)
Definition pop_head (l : List) : option T * List :=
  match head l with
  | None => (None, l)
  | Some h =>
      match SlotMap.remove (map l) h with
      | (Some oldHead, m) =>
          (Some (value oldHead),
           {| map := m; tail := tail l; head := next oldHead |})
      | (None, m) => (None, {| map := m; tail := tail l; head := head l |})
      end
  end.

(** The same at the other end: [this.tail = oldTail.prev]. *)
Definition pop_tail (l : List) : option T * List :=
  match tail l with
  | None => (None, l)
  | Some t =>
      match SlotMap.remove (map l) t with
      | (Some oldTail, m) =>
          (Some (value oldTail),
           {| map := m; tail := prev oldTail; head := head l |})
      | (None, m) => (None, {| map := m; tail := tail l; head := head l |})
      end
  end.

(** [if (!key) return null]
    [const node = this.map.remove(key)]
    [if (node) {]
    [  const prevNode = node.prev ? this.map.get(node.prev) : null]
    [  if (prevNode) prevNode.next = node.next else this.head = node.next]
    [  const nextNode = node.next ? this.map.get(node.next) : null]
    [  if (nextNode) nextNode.prev = node.prev else this.tail = node.prev]
    [  return node.value }]
    [return null] *)
Definition remove (l : List) (key : ListKey) : option T * List :=
  match key with
  | None => (None, l)
  | Some key =>
      match SlotMap.remove (map l) key with
      | (Some node, m) =>
          let '(m1, head1) :=
            match prev node with
            | Some p =>
                match SlotMap.get m p with
                | Some prevNode => (set_next m p (next node), head l)
                | None => (m, next node)
                end
            | None => (m, next node)
            end in
          let '(m2, tail2) :=
            match next node with
            | Some n =>
                match SlotMap.get m1 n with
                | Some nextNode => (set_prev m1 n (prev node), tail l)
                | None => (m1, prev node)
                end
            | None => (m1, prev node)
            end in
          (Some (value node), {| map := m2; tail := tail2; head := head1 |})
      | (None, m) => (None, {| map := m; tail := tail l; head := head l |})
      end
  end.

(** [const node = key ? this.map.get(key) : null]
    [return node ? node.value : null] *)
Definition get (l : List) (key : ListKey) : option T :=
  match key with
  | Some key =>
      match SlotMap.get (map l) key with
      | Some node => Some (value node)
      | None => None
      end
  | None => None
  end.

End DList.
End DList.

(** ** What a well-formed doubly-linked list is *)

Module DListRepr.
Section DListRepr.

Context {T : Type}.

(** A key that the arena has outlived: the slot of its index carries a
    greater generation, so the key is invalid and stays so. *)
Definition dead (m : list (Z * @DList.Node T)) (k : Z * nat) : Prop :=
  ∃ g nd, m !! k.2 = Some (g, nd) ∧ (k.1 < g)%Z.

(** A link that leads nowhere: [null], or a dead key. *)
Definition gone (m : list (Z * @DList.Node T)) (key : option (Z * nat)) : Prop :=
  match key with
  | None => True
  | Some k => dead m k
  end.

(** Following the links [sel] from [start] visits the keys of [kxs] in order,
    each a valid key of a node with the listed value, and ends at a link that
    satisfies [stop]. *)
Fixpoint seg (sel : @DList.Node T → option (Z * nat))
    (m : list (Z * @DList.Node T)) (start : option (Z * nat))
    (kxs : list ((Z * nat) * T)) (stop : option (Z * nat) → Prop) : Prop :=
  match kxs with
  | [] => stop start
  | (k, x) :: rest =>
      start = Some k
      ∧ ∃ nd, SlotMap.get m k = Some nd ∧ DList.value nd = x
              ∧ seg sel m (sel nd) rest stop
  end.

(** A store [m] with the two end links [hd] and [tl] holds the values of
    [kxs], in order, under the keys of [kxs]: from [hd] the links [fwd] run
    through them and end nowhere, from [tl] the links [bwd] run through them
    backwards and end nowhere, the keys are distinct entities of even
    generation, and the store has no other occupied slot. *)
Definition wf (fwd bwd : @DList.Node T → option (Z * nat))
    (m : list (Z * @DList.Node T)) (hd tl : option (Z * nat))
    (kxs : list ((Z * nat) * T)) : Prop :=
  seg fwd m hd kxs (gone m)
  ∧ seg bwd m tl (reverse kxs) (gone m)
  ∧ NoDup kxs.*1
  ∧ (∀ k, k ∈ kxs.*1 → Z.even k.1 = true)
  ∧ (∀ k nd, SlotMap.get m k = Some nd → Z.even k.1 = true → k ∈ kxs.*1).

(** The list [l] represents [kxs]: [next] runs forwards from [head] and
    [prev] backwards from [tail]. *)
Definition repr (l : @DList.List T) (kxs : list ((Z * nat) * T)) : Prop :=
  wf DList.next DList.prev (DList.map l) (DList.head l) (DList.tail l) kxs.

(** The order in which every operation moves a store: slots stay and their
    generations do not go down. *)
Definition grows (m m' : list (Z * @DList.Node T)) : Prop :=
  ∀ i g nd, m !! i = Some (g, nd) →
            ∃ g' nd', m' !! i = Some (g', nd') ∧ (g ≤ g')%Z.

(** No generation of the store is above [B]. *)
Definition bounded (B : Z) (m : list (Z * @DList.Node T)) : Prop :=
  ∀ i s, m !! i = Some s → (s.1 ≤ B)%Z.

(** An assignment to fields of the node held by the slot of [h]; [set_prev]
    and [set_next] are instances. *)
Definition upd (f : @DList.Node T → @DList.Node T)
    (m : list (Z * @DList.Node T)) (h : Z * nat) : list (Z * @DList.Node T) :=
  alter (λ slot, (slot.1, f slot.2)) h.2 m.

End DListRepr.
End DListRepr.

(** ** Programs over the list, and the double-ended queue they should be *)

Module Deque.
Section Deque.

Context {T : Type}.

(** The operations of the list that need no key. *)
Inductive op : Type :=
  | PushHead (v : T)
  | PushTail (v : T)
  | PopHead
  | PopTail
  | Len.

(** What the caller sees of one operation; the key that a push returns is
    not compared. *)
Inductive seen : Type :=
  | Pushed
  | Popped (r : option T)
  | Counted (n : nat).

Definition step (l : @DList.List T) (o : op) : seen * @DList.List T :=
  match o with
  | PushHead v => (Pushed, (DList.push_head l v).2)
  | PushTail v => (Pushed, (DList.push_tail l v).2)
  | PopHead => (Popped (DList.pop_head l).1, (DList.pop_head l).2)
  | PopTail => (Popped (DList.pop_tail l).1, (DList.pop_tail l).2)
  | Len => (Counted (DList.len l), l)
  end.

Fixpoint run (ops : list op) (l : @DList.List T) : list seen :=
  match ops with
  | [] => []
  | o :: ops' => (step l o).1 :: run ops' (step l o).2
  end.

(** The same operations on a plain sequence of values. *)
Definition model_step (xs : list T) (o : op) : seen * list T :=
  match o with
  | PushHead v => (Pushed, v :: xs)
  | PushTail v => (Pushed, xs ++ [v])
  | PopHead => (Popped (head xs), tail xs)
  | PopTail => (Popped (last xs), removelast xs)
  | Len => (Counted (length xs), xs)
  end.

Fixpoint model_run (ops : list op) (xs : list T) : list seen :=
  match ops with
  | [] => []
  | o :: ops' => (model_step xs o).1 :: model_run ops' (model_step xs o).2
  end.

End Deque.
End Deque.

(** ** The scenario of the documentation *)

Example arena_scenario :
  let '(a, s1) := SlotMap.insert [] "A"%string in
  let '(b, s2) := SlotMap.insert s1 "B"%string in
  let '(c, s3) := SlotMap.insert s2 "C"%string in
  let '(r, s4) := SlotMap.remove s3 (0%Z, 1) in
  let '(d, s5) := SlotMap.insert s4 "D"%string in
  (a, b, c) = ((0%Z, 0), (0%Z, 1), (0%Z, 2))
  ∧ r = Some "B"%string
  ∧ d = (2%Z, 1)
  ∧ SlotMap.get s5 (0%Z, 1) = None
  ∧ SlotMap.iter s5 = [((0%Z, 0), "A"); ((2%Z, 1), "D"); ((0%Z, 2), "C")]%string.
Proof. vm_compute. done. Qed.

Example secondary_grows :
  let s := SecondaryMap.insert SecondaryMap.new (4%Z, 3) "w"%string in
  SecondaryMap.elems s
    = [SecondaryMap.Hole; SecondaryMap.Hole; SecondaryMap.Hole;
       SecondaryMap.Full (4%Z, "w"%string)]
  ∧ SecondaryMap.get s (4%Z, 3) = Some "w"%string
  ∧ SecondaryMap.len s = 1.
Proof. vm_compute. done. Qed.

(** The test of the source, [Deno.test("Doubly-Linked List", ...)], with its
    assertions. *)
Example doubly_linked_list_test :
  let '(k, l) := DList.push_head DList.new 5 in
  let '(_, l) := DList.push_tail l 6 in
  let '(_, l) := DList.push_head l 3 in
  let '(_, l) := DList.push_tail l 7 in
  let '(_, l) := DList.push_head l 4 in
  let len5 := DList.len l in
  let '(r1, l) := DList.pop_head l in
  let '(r2, l) := DList.pop_head l in
  let head2 := DList.head l in
  let '(_, l) := DList.push_head l 10 in
  let '(r3, l) := DList.remove l (Some k) in
  let '(r4, l) := DList.pop_tail l in
  let '(r5, l) := DList.pop_tail l in
  let '(r6, l) := DList.pop_head l in
  let '(r7, l) := DList.pop_head l in
  let '(r8, l) := DList.pop_tail l in
  len5 = 5 ∧ r1 = Some 4 ∧ r2 = Some 3 ∧ head2 = Some k
  ∧ r3 = Some 5 ∧ r4 = Some 7 ∧ r5 = Some 6 ∧ r6 = Some 10
  ∧ r7 = None ∧ r8 = None.
Proof. vm_compute. done. Qed.

(** ** The counting loop of [len] *)

Lemma count_loop {A} (l : list A) n :
  fold_left (λ len _, len + 1) l n = n + length l.
Proof.
  revert n. induction l as [|x l IH]; intros n; simpl; [lia|].
  rewrite IH. lia.
Qed.

(** ** Facts about the arena *)

Module SlotMapSpec.
Import SlotMap.
Section SlotMapSpec.

Context {C : Type}.
Implicit Types (st : list (Z * C)) (g : Z) (c comp : C) (i j k : nat).

(** *** Parity *)

Lemma even_generation_even g : even_generation g = Z.even g.
Proof.
  unfold even_generation. rewrite Zrem_even.
  destruct (Z.even g) eqn:E; [done|].
  destruct g; simpl in *; done.
Qed.

Lemma even_generation_odd g : negb (even_generation g) = Z.odd g.
Proof. by rewrite even_generation_even, Z.negb_even. Qed.

Lemma even_generation_succ g :
  even_generation (g + 1) = negb (even_generation g).
Proof.
  rewrite !even_generation_even, Z.add_1_r, Z.even_succ.
  by rewrite <- Z.negb_even.
Qed.

Lemma occupied_iff (s : Z * C) : occupied s ↔ even_generation s.1 = true.
Proof. unfold occupied. by rewrite even_generation_even. Qed.

Lemma vacant_iff (s : Z * C) : vacant s ↔ even_generation s.1 = false.
Proof.
  unfold vacant. rewrite <- even_generation_odd.
  by destruct (even_generation s.1).
Qed.

(** *** The increment of [remove] *)

Lemma number_succ_below g : (g < max_generation)%Z → number_succ g = (g + 1)%Z.
Proof. intros Hlt. unfold number_succ. by rewrite decide_True. Qed.

Lemma number_succ_stuck g : (max_generation ≤ g)%Z → number_succ g = g.
Proof. intros Hge. unfold number_succ. rewrite decide_False; [done|lia]. Qed.

Lemma number_succ_bounds g : (g ≤ number_succ g ≤ g + 1)%Z.
Proof. unfold number_succ. case_decide; lia. Qed.

(** The increment takes an even generation to an odd one or leaves it. *)
Lemma number_succ_even g :
  Z.even g = true → number_succ g = g ∨ Z.even (number_succ g) = false.
Proof.
  intros Hev. unfold number_succ. case_decide; [|by left]. right.
  by rewrite Z.add_1_r, Z.even_succ, <- Z.negb_even, Hev.
Qed.

(** *** [get] and [remove] *)

Lemma get_Some st g i c : get st (g, i) = Some c ↔ st !! i = Some (g, c).
Proof.
  unfold get; simpl. destruct (st !! i) as [[g' c']|] eqn:E; simpl.
  - destruct (Z.eqb_spec g g') as [->|Hne]; naive_solver.
  - naive_solver.
Qed.

Lemma get_None st g i :
  get st (g, i) = None ↔
  length st ≤ i ∨ ∃ g' c', st !! i = Some (g', c') ∧ g' ≠ g.
Proof.
  unfold get; simpl. destruct (st !! i) as [[g' c']|] eqn:E; simpl.
  - apply lookup_lt_Some in E as Hlt.
    destruct (Z.eqb_spec g g') as [->|Hne]; split; try done.
    + intros [?|(? & ? & [= <- <-] & ?)]; [lia|done].
    + intros _. right. by exists g', c'.
  - apply lookup_ge_None in E. split; [by left|done].
Qed.

Lemma remove_Some st g i c st' :
  remove st (g, i) = (Some c, st') ↔
  st !! i = Some (g, c) ∧ st' = <[i := (number_succ g, c)]> st.
Proof.
  unfold remove; simpl. destruct (st !! i) as [[g' c']|] eqn:E; simpl.
  - destruct (Z.eqb_spec g g') as [->|Hne]; split.
    + by intros [= -> <-].
    + by intros [[= ->] ->].
    + done.
    + intros [[= <- <-] _]. done.
  - split; [done|by intros [? _]].
Qed.

Lemma remove_None st g i st' :
  remove st (g, i) = (None, st') ↔ get st (g, i) = None ∧ st' = st.
Proof.
  unfold remove, get; simpl. destruct (st !! i) as [[g' c']|]; simpl.
  - destruct (g =? g')%Z; split; try done.
    + by intros [? _].
    + by intros [= <-].
    + by intros [_ ->].
  - split; [by intros [= <-]|by intros [_ ->]].
Qed.

Lemma remove_fst st (e : Z * nat) : (remove st e).1 = get st e.
Proof.
  unfold remove, get. destruct (st !! e.2) as [[g' c']|]; simpl; [|done].
  by destruct (e.1 =? g')%Z.
Qed.

(** *** The loop of [insert] *)

Lemma insert_loop_inl comp k st (e : Z * nat) st' :
  insert_loop comp k st = inl (e, st') →
  ∃ i g c,
    st !! i = Some (g, c) ∧ even_generation g = false
    ∧ (∀ j s, j < i → st !! j = Some s → even_generation s.1 = true)
    ∧ e = ((g + 1)%Z, k + i) ∧ st' = <[i := ((g + 1)%Z, comp)]> st.
Proof.
  revert k st'. induction st as [|[g c] rest IH]; intros k st'; simpl; [done|].
  destruct (even_generation g) eqn:Eg; simpl.
  - destruct (insert_loop comp (k + 1) rest) as [[e' rest']|] eqn:El; [|done].
    intros [= <- <-]. destruct (IH _ _ El) as (i & g' & c' & Hi & Hg' & Hlt & -> & ->).
    exists (S i), g', c'. split_and!; try done.
    + intros [|j] s Hj; simpl; [by intros [= <-]|]. apply Hlt. lia.
    + f_equal. lia.
  - intros [= <- <-]. exists 0, g, c. split_and!; try done.
    + intros j s Hj. lia.
    + f_equal. lia.
Qed.

Lemma insert_loop_inr comp k st idx :
  insert_loop comp k st = inr idx →
  idx = k + length st ∧ ∀ j s, st !! j = Some s → even_generation s.1 = true.
Proof.
  revert k. induction st as [|[g c] rest IH]; intros k; simpl.
  - intros [= <-]. split; [lia|done].
  - destruct (even_generation g) eqn:Eg; simpl; [|done].
    destruct (insert_loop comp (k + 1) rest) as [[e' rest']|] eqn:El; [done|].
    intros [= <-]. destruct (IH _ El) as [-> Hall]. split; [lia|].
    intros [|j] s; simpl; [by intros [= <-]|]. apply Hall.
Qed.

(** The two ways [insert] ends, in the terms of the loop's own test. *)
Lemma insert_cases st comp :
  (∃ i g c,
      st !! i = Some (g, c) ∧ even_generation g = false
      ∧ (∀ j s, j < i → st !! j = Some s → even_generation s.1 = true)
      ∧ insert st comp = (((g + 1)%Z, i), <[i := ((g + 1)%Z, comp)]> st))
  ∨ ((∀ j s, st !! j = Some s → even_generation s.1 = true)
      ∧ insert st comp = ((0%Z, length st), st ++ [(0%Z, comp)])).
Proof.
  unfold insert. destruct (insert_loop comp 0 st) as [[e st']|idx] eqn:El.
  - left. destruct (insert_loop_inl _ _ _ _ _ El) as (i & g & c & ? & ? & ? & -> & ->).
    by exists i, g, c.
  - right. destruct (insert_loop_inr _ _ _ _ El) as [-> ?]. done.
Qed.

(** *** Generations never go down *)

Lemma insert_lookup_mono st comp i g c :
  st !! i = Some (g, c) →
  ∃ g' c', (insert st comp).2 !! i = Some (g', c') ∧ (g ≤ g')%Z.
Proof.
  intros Hi. destruct (insert_cases st comp)
    as [(i0 & g0 & c0 & Hi0 & _ & _ & ->)|[_ ->]]; simpl.
  - destruct (decide (i = i0)) as [->|Hne].
    + rewrite Hi0 in Hi. injection Hi as <- <-.
      exists (g0 + 1)%Z, comp. split; [|lia].
      apply list_lookup_insert_eq. by eapply lookup_lt_Some.
    + exists g, c. split; [|lia]. by rewrite list_lookup_insert_ne.
  - exists g, c. split; [|lia]. by apply lookup_app_l_Some.
Qed.

Lemma remove_lookup_mono st (e : Z * nat) i g c :
  st !! i = Some (g, c) →
  ∃ g' c', (remove st e).2 !! i = Some (g', c') ∧ (g ≤ g')%Z.
Proof.
  intros Hi. destruct e as [ge ie].
  destruct (remove st (ge, ie)) as [[x|] st'] eqn:Er; simpl.
  - apply remove_Some in Er as [Hie ->].
    destruct (decide (i = ie)) as [->|Hne].
    + rewrite Hie in Hi. injection Hi as <- <-.
      exists (number_succ ge), x. split; [|apply number_succ_bounds].
      apply list_lookup_insert_eq. by eapply lookup_lt_Some.
    + exists g, c. split; [|lia]. by rewrite list_lookup_insert_ne.
  - apply remove_None in Er as [_ ->]. exists g, c. split; [done|lia].
Qed.

Lemma step_lookup_mono st (o : op) i g c :
  st !! i = Some (g, c) →
  ∃ g' c', step st o !! i = Some (g', c') ∧ (g ≤ g')%Z.
Proof.
  intros Hi. destruct o; simpl;
    eauto using insert_lookup_mono, remove_lookup_mono;
    exists g, c; (split; [done|lia]).
Qed.

Lemma run_lookup_mono (ops : list op) st i g c :
  st !! i = Some (g, c) →
  ∃ g' c', run ops st !! i = Some (g', c') ∧ (g ≤ g')%Z.
Proof.
  revert st g c. induction ops as [|o ops IH]; intros st g c Hi; simpl.
  - exists g, c. split; [done|lia].
  - destruct (step_lookup_mono st o i g c Hi) as (g1 & c1 & H1 & Hle1).
    destruct (IH _ _ _ H1) as (g2 & c2 & H2 & Hle2).
    exists g2, c2. split; [done|lia].
Qed.

(** A key whose generation is below the slot's is absent, and stays so. *)
Lemma get_stale st g g' c' i :
  st !! i = Some (g', c') → (g < g')%Z → get st (g, i) = None.
Proof.
  intros Hi Hlt. apply get_None. right. exists g', c'. split; [done|lia].
Qed.

Lemma get_stale_forever (ops : list op) st g g' c' i :
  st !! i = Some (g', c') → (g < g')%Z → get (run ops st) (g, i) = None.
Proof.
  intros Hi Hlt.
  destruct (run_lookup_mono ops st i g' c' Hi) as (g2 & c2 & H2 & Hle).
  eapply get_stale; [done|lia].
Qed.

(** *** The traversal *)

Lemma elem_of_iter_from k st g i c :
  ((g, i), c) ∈ iter_from k st ↔
  ∃ j, i = k + j ∧ st !! j = Some (g, c) ∧ even_generation g = true.
Proof.
  revert k. induction st as [|[g0 c0] rest IH]; intros k; simpl.
  - split; [by intros ?%elem_of_nil|by intros (? & _ & ? & _)].
  - destruct (even_generation g0) eqn:Eg.
    + rewrite elem_of_cons, IH. split.
      * intros [[= -> -> ->]|(j & -> & Hj & Hg)].
        -- exists 0. split_and!; [lia|done|done].
        -- exists (S j). split_and!; [lia|done|done].
      * intros ([|j] & -> & Hj & Hg); simpl in Hj.
        -- left. injection Hj as -> ->. do 2 f_equal. lia.
        -- right. exists j. split_and!; [lia|done|done].
    + rewrite IH. split.
      * intros (j & -> & Hj & Hg). exists (S j). split_and!; [lia|done|done].
      * intros ([|j] & -> & Hj & Hg); simpl in Hj.
        -- injection Hj as -> ->. congruence.
        -- exists j. split_and!; [lia|done|done].
Qed.

Lemma elem_of_iter st g i c :
  ((g, i), c) ∈ iter st ↔ st !! i = Some (g, c) ∧ even_generation g = true.
Proof.
  unfold iter. rewrite elem_of_iter_from. split.
  - by intros (j & -> & ?).
  - intros ?. by exists i.
Qed.

Lemma iter_from_ascending k st :
  StronglySorted (λ x y : Z * nat * C, x.1.2 < y.1.2) (iter_from k st).
Proof.
  revert k. induction st as [|[g0 c0] rest IH]; intros k; simpl.
  - constructor.
  - destruct (even_generation g0); [|apply IH].
    constructor; [apply IH|].
    apply Forall_forall. intros [[g i] c] (j & -> & _)%elem_of_iter_from.
    simpl. lia.
Qed.

(** *** Reachable stores *)

Lemma reachable_run (ops : list op) st : reachable st → reachable (run ops st).
Proof.
  revert st. induction ops as [|o ops IH]; intros st Hr; simpl; [done|].
  apply IH. by constructor.
Qed.

Lemma insert_generation_nonneg st comp :
  (∀ i s, st !! i = Some s → (0 ≤ s.1)%Z) →
  ∀ i s, (insert st comp).2 !! i = Some s → (0 ≤ s.1)%Z.
Proof.
  intros Hst i s. destruct (insert_cases st comp)
    as [(i0 & g0 & c0 & Hi0 & _ & _ & ->)|[_ ->]]; simpl.
  - pose proof (Hst _ _ Hi0) as H0; simpl in H0.
    destruct (decide (i = i0)) as [->|Hne].
    + rewrite list_lookup_insert_eq by (by eapply lookup_lt_Some).
      intros [= <-]; simpl. lia.
    + rewrite list_lookup_insert_ne by done. apply Hst.
  - rewrite lookup_app. destruct (st !! i) as [s'|] eqn:Ei.
    + intros [= <-]. by eapply Hst.
    + destruct (i - length st) as [|n]; simpl; [|done].
      intros [= <-]; simpl. lia.
Qed.

Lemma remove_generation_nonneg st (e : Z * nat) :
  (∀ i s, st !! i = Some s → (0 ≤ s.1)%Z) →
  ∀ i s, (remove st e).2 !! i = Some s → (0 ≤ s.1)%Z.
Proof.
  intros Hst i s. destruct e as [ge ie].
  destruct (remove st (ge, ie)) as [[x|] st'] eqn:Er; simpl.
  - apply remove_Some in Er as [Hie ->].
    pose proof (Hst _ _ Hie) as H0; simpl in H0.
    destruct (decide (i = ie)) as [->|Hne].
    + rewrite list_lookup_insert_eq by (by eapply lookup_lt_Some).
      intros [= <-]; simpl. pose proof (number_succ_bounds ge). lia.
    + rewrite list_lookup_insert_ne by done. apply Hst.
  - apply remove_None in Er as [_ ->]. apply Hst.
Qed.

Lemma reachable_generation_nonneg st :
  reachable st → ∀ i s, st !! i = Some s → (0 ≤ s.1)%Z.
Proof.
  induction 1 as [|st o _ IH]; [intros i s Hi; by rewrite lookup_nil in Hi|].
  destruct o; simpl;
    [by apply insert_generation_nonneg|by apply remove_generation_nonneg|done..].
Qed.

(** *** The contract of the arena *)

(** C2, round trip: in every store (hence in every reachable one) and for
    every component [comp], looking up the entity that [insert] has just
    returned, in the store that [insert] left, gives back [comp]. *)
Theorem get_insert st comp :
  get (insert st comp).2 (insert st comp).1 = Some comp.
Proof.
  destruct (insert_cases st comp)
    as [(i & g & c & Hi & _ & _ & ->)|[_ ->]]; simpl; apply get_Some.
  - apply list_lookup_insert_eq. by eapply lookup_lt_Some.
  - by apply list_lookup_middle.
Qed.

(** C5, what [insert] does: scanning from index 0, at the first vacant slot
    (all slots before it occupied) the generation of that slot goes up by one,
    [comp] is stored there, and the entity returned carries the new generation
    and that index; when every slot is occupied a slot of generation 0 holding
    [comp] is appended and the entity is [(0, old length)]. *)
Theorem insert_spec st comp :
  (∃ i s,
      st !! i = Some s ∧ vacant s
      ∧ (∀ j s', j < i → st !! j = Some s' → occupied s')
      ∧ insert st comp = (((s.1 + 1)%Z, i), <[i := ((s.1 + 1)%Z, comp)]> st))
  ∨ ((∀ j s, st !! j = Some s → occupied s)
      ∧ insert st comp = ((0%Z, length st), st ++ [(0%Z, comp)])).
Proof.
  destruct (insert_cases st comp)
    as [(i & g & c & Hi & Hg & Hlt & Hins)|[Hall Hins]].
  - left. exists i, (g, c). split_and!; [done|by apply vacant_iff|..|done].
    intros j s' Hj Hs'. apply occupied_iff. by eapply Hlt.
  - right. split; [|done]. intros j s Hs. apply occupied_iff. by eapply Hall.
Qed.

(** C6, validity, as the code has it: for every entity and every store, [get]
    and [remove] are absent exactly when the index is out of bounds or the
    generation stored there is not the entity's; a [remove] that succeeds
    returns the component that was stored and, when the generation is below
    2^53, adds exactly one to the generation of the slot; a [remove] that
    fails leaves the store as it was. *)
Theorem get_remove_validity st g i :
  (get st (g, i) = None ↔
     length st ≤ i ∨ ∃ g' c', st !! i = Some (g', c') ∧ g' ≠ g)
  ∧ ((remove st (g, i)).1 = None ↔
     length st ≤ i ∨ ∃ g' c', st !! i = Some (g', c') ∧ g' ≠ g)
  ∧ (∀ c, (remove st (g, i)).1 = Some c →
       st !! i = Some (g, c)
       ∧ ((g < max_generation)%Z →
          (remove st (g, i)).2 = <[i := ((g + 1)%Z, c)]> st))
  ∧ ((remove st (g, i)).1 = None → (remove st (g, i)).2 = st).
Proof.
  split_and!.
  - apply get_None.
  - rewrite remove_fst. apply get_None.
  - intros c Hc. destruct (remove st (g, i)) as [r st'] eqn:Er.
    simpl in Hc; subst r. apply remove_Some in Er as [Hi ->].
    split; [done|]. intros Hlt. simpl. by rewrite number_succ_below.
  - intros Hn. destruct (remove st (g, i)) as [r st'] eqn:Er.
    simpl in Hn; subst r. by apply remove_None in Er as [_ ->].
Qed.

(** C3, tombstone, as the code has it: let [e] be the entity returned by an
    [insert], of a generation below 2^53; once a [remove] of [e] has succeeded
    (at any later point), [get] of [e] is absent and a second [remove] of [e]
    is absent and changes nothing, immediately and after any further
    operations. *)
Theorem tombstone st comp (ops ops' : list op) (e : Z * nat) st1 c st' :
  insert st comp = (e, st1) →
  (e.1 < max_generation)%Z →
  remove (run ops st1) e = (Some c, st') →
  get st' e = None ∧ remove st' e = (None, st')
  ∧ get (run ops' st') e = None ∧ (remove (run ops' st') e).1 = None.
Proof.
  intros _ Hmax Hr. destruct e as [g i]. simpl in Hmax.
  apply remove_Some in Hr as [Hi ->]. rewrite number_succ_below by done.
  assert (<[i := ((g + 1)%Z, c)]> (run ops st1) !! i = Some ((g + 1)%Z, c))
    as Hnew by (apply list_lookup_insert_eq; by eapply lookup_lt_Some).
  assert (g < g + 1)%Z as Hlt by lia.
  split_and!.
  - by eapply get_stale.
  - apply remove_None. split; [by eapply get_stale|done].
  - by eapply get_stale_forever.
  - rewrite remove_fst. by eapply get_stale_forever.
Qed.

(** C1, non-resurrection: if [e1] came from an [insert], a later [remove] of
    [e1] succeeded, and a later [insert] returned an entity [e2] with the index
    of [e1], then the generation of [e2] is strictly greater than that of [e1],
    so [e1 ≠ e2], and after every further sequence of public operations [get]
    of [e1] is absent. Any public operations may come in between. *)
Theorem non_resurrection st v1 v2 (opsA opsB opsC : list op)
    (e1 e2 : Z * nat) st1 c st3 st5 :
  insert st v1 = (e1, st1) →
  remove (run opsA st1) e1 = (Some c, st3) →
  insert (run opsB st3) v2 = (e2, st5) →
  e2.2 = e1.2 →
  (e1.1 < e2.1)%Z ∧ e1 ≠ e2 ∧ get (run opsC st5) e1 = None.
Proof.
  intros _ Hr Hins Hidx. destruct e1 as [g i]. simpl in Hidx.
  apply remove_Some in Hr as [Hi ->].
  assert (<[i := (number_succ g, c)]> (run opsA st1) !! i
          = Some (number_succ g, c))
    as Hnew by (apply list_lookup_insert_eq; by eapply lookup_lt_Some).
  pose proof (number_succ_bounds g) as Hsucc.
  destruct (run_lookup_mono opsB _ _ _ _ Hnew) as (g' & c' & Hg' & Hle).
  set (st4 := run opsB _) in *.
  assert (st5 !! i = Some (e2.1, v2) ∧ (g < e2.1)%Z) as [H5 Hlt].
  { destruct (insert_cases st4 v2)
      as [(i0 & g0 & c0 & Hi0 & _ & _ & Heq)|[_ Heq]];
      rewrite Heq in Hins; injection Hins as <- <-; simpl in *.
    - subst i0. rewrite Hi0 in Hg'. injection Hg' as -> ->. split; [|lia].
      apply list_lookup_insert_eq. by eapply lookup_lt_Some.
    - apply lookup_lt_Some in Hg'. lia. }
  split_and!.
  - done.
  - intros Heq. rewrite <- Heq in Hlt. simpl in Hlt. lia.
  - by eapply get_stale_forever.
Qed.

(** C8, forged key, as the code has it: [get] and [remove] compare
    generations for equality and never look at parity. After [remove (g, i)]
    has succeeded, with [g + 1] below 2^53, the slot carries [g + 1]; the
    entity [(g + 1, i)], which no [insert] issued, then reads the removed
    component, and removing it succeeds too, leaving the slot at [g + 2] with
    the old component. When the slot was occupied, [g + 1] is odd (vacant) and
    the slot ends occupied again and is yielded by [iter]. *)
Theorem forged_key_revives st g i c st1 :
  (g + 1 < max_generation)%Z →
  remove st (g, i) = (Some c, st1) →
  st1 !! i = Some ((g + 1)%Z, c)
  ∧ get st1 ((g + 1)%Z, i) = Some c
  ∧ ∃ st2,
      remove st1 ((g + 1)%Z, i) = (Some c, st2)
      ∧ st2 !! i = Some ((g + 2)%Z, c)
      ∧ (occupied (g, c) →
           vacant ((g + 1)%Z, c) ∧ occupied ((g + 2)%Z, c)
           ∧ (((g + 2)%Z, i), c) ∈ iter st2).
Proof.
  intros Hmax [Hi ->]%remove_Some. rewrite number_succ_below by lia.
  assert (i < length st) as Hlt by (by eapply lookup_lt_Some).
  assert (<[i := ((g + 1)%Z, c)]> st !! i = Some ((g + 1)%Z, c))
    as Hnew by (by apply list_lookup_insert_eq).
  assert (number_succ (g + 1) = (g + 2)%Z) as Hsucc
    by (rewrite number_succ_below by done; lia).
  split_and!; [done|by apply get_Some|].
  eexists. split_and!.
  - by apply remove_Some.
  - rewrite list_lookup_insert_eq by (by rewrite length_insert).
    by rewrite Hsucc.
  - unfold occupied, vacant; simpl. intros Hev.
    assert (Z.even (g + 2) = true) as Hev2.
    { replace (g + 2)%Z with (Z.succ (Z.succ g)) by lia.
      by rewrite Z.even_succ_succ. }
    split_and!.
    + by rewrite Z.add_1_r, Z.odd_succ.
    + done.
    + apply elem_of_iter. split.
      * rewrite list_lookup_insert_eq by (by rewrite length_insert).
        by rewrite Hsucc.
      * by rewrite even_generation_even.
Qed.

(** C9, parity invariant: in every reachable store the entity that [insert]
    returns and every entity that [iter] yields carry an even generation, and
    every slot has a generation that is not negative and whose parity decides
    the traversal: [iter] yields the slot when it is even and yields nothing
    at that index when it is odd. *)
Theorem generation_parity st :
  reachable st →
  (∀ comp, Z.even (insert st comp).1.1 = true)
  ∧ (∀ e c, (e, c) ∈ iter st → Z.even e.1 = true)
  ∧ (∀ i g c, st !! i = Some (g, c) →
       (0 ≤ g)%Z
       ∧ (((g, i), c) ∈ iter st ↔ Z.even g = true)
       ∧ ((∀ e c', (e, c') ∈ iter st → e.2 ≠ i) ↔ Z.odd g = true)).
Proof.
  intros Hreach. split_and!.
  - intros comp. destruct (insert_cases st comp)
      as [(i & g & c & _ & Hg & _ & ->)|[_ ->]]; simpl; [|done].
    rewrite <- even_generation_even, even_generation_succ. by rewrite Hg.
  - intros [g i] c [_ Hg]%elem_of_iter. by rewrite <- even_generation_even.
  - intros i g c Hi. split_and!.
    + by apply (reachable_generation_nonneg st Hreach i (g, c)).
    + rewrite elem_of_iter, even_generation_even. by intuition.
    + rewrite <- Z.negb_even. split.
      * intros Hno. destruct (Z.even g) eqn:Ev; [|done].
        exfalso. apply (Hno (g, i) c); [|done].
        apply elem_of_iter. by rewrite even_generation_even.
      * intros Hodd [g' i'] c' [Hi' Hg']%elem_of_iter ?; simpl in *; subst i'.
        rewrite Hi in Hi'. injection Hi' as <- <-.
        rewrite even_generation_even in Hg'. by rewrite Hg' in Hodd.
Qed.

End SlotMapSpec.

(** *** The theorems at concrete stores *)

Lemma tombstone_witness :
  insert [] "A"%string = ((0%Z, 0), [(0%Z, "A"%string)])
  ∧ ((0%Z, 0).1 < max_generation)%Z
  ∧ remove (run [Insert "B"%string] [(0%Z, "A"%string)]) (0%Z, 0)
    = (Some "A"%string, [(1%Z, "A"%string); (0%Z, "B"%string)])
  ∧ get [(1%Z, "A"%string); (0%Z, "B"%string)] (0%Z, 0) = None
  ∧ remove [(1%Z, "A"%string); (0%Z, "B"%string)] (0%Z, 0)
    = (None, [(1%Z, "A"%string); (0%Z, "B"%string)])
  ∧ get (run [Insert "C"%string] [(1%Z, "A"%string); (0%Z, "B"%string)])
      (0%Z, 0) = None
  ∧ (remove (run [Insert "C"%string] [(1%Z, "A"%string); (0%Z, "B"%string)])
       (0%Z, 0)).1 = None.
Proof.
  do 3 (split; [reflexivity|]).
  apply (tombstone [] "A"%string [Insert "B"%string] [Insert "C"%string]
           (0%Z, 0) [(0%Z, "A"%string)] "A"%string
           [(1%Z, "A"%string); (0%Z, "B"%string)]); reflexivity.
Defined.

(** The tombstone fails at the last generation: the entity that [insert]
    issues at generation 2^53 is still found after its [remove], and a second
    [remove] succeeds. *)
Lemma tombstone_at_max_generation :
  insert [((max_generation - 1)%Z, "A"%string)] "B"%string
    = ((max_generation, 0), [(max_generation, "B"%string)])
  ∧ remove [(max_generation, "B"%string)] (max_generation, 0)
    = (Some "B"%string, [(max_generation, "B"%string)])
  ∧ get [(max_generation, "B"%string)] (max_generation, 0) = Some "B"%string
  ∧ get [(max_generation, "B"%string)] (max_generation, 0) ≠ None
  ∧ (remove [(max_generation, "B"%string)] (max_generation, 0)).1 ≠ None.
Proof. by vm_compute. Qed.

(** At the last generation a [remove] that succeeds leaves the generation of
    the slot as it was, and does not add one to it. *)
Lemma remove_at_max_generation :
  (remove [(max_generation, "A"%string)] (max_generation, 0)).1
    = Some "A"%string
  ∧ (remove [(max_generation, "A"%string)] (max_generation, 0)).2
    = [(max_generation, "A"%string)]
  ∧ (remove [(max_generation, "A"%string)] (max_generation, 0)).2
    ≠ <[0 := ((max_generation + 1)%Z, "A"%string)]>
        [(max_generation, "A"%string)].
Proof. by vm_compute. Qed.

(** At the last generation [g], after a [remove] that succeeds the slot does
    not carry [g + 1], its generation is not odd, and [iter] still yields
    it. *)
Lemma forged_key_at_max_generation :
  remove [(max_generation, "A"%string)] (max_generation, 0)
    = (Some "A"%string, [(max_generation, "A"%string)])
  ∧ [(max_generation, "A"%string)] !! 0
    ≠ Some ((max_generation + 1)%Z, "A"%string)
  ∧ ¬ vacant (max_generation, "A"%string)
  ∧ ((max_generation, 0), "A"%string) ∈ iter [(max_generation, "A"%string)].
Proof.
  split_and!; [by vm_compute..|]. apply list_elem_of_here.
Qed.

Lemma get_remove_validity_witness :
  (remove [(0%Z, "A"%string)] (0%Z, 0)).1 = Some "A"%string
  ∧ (0 < max_generation)%Z
  ∧ [(0%Z, "A"%string)] !! 0 = Some (0%Z, "A"%string)
  ∧ (remove [(0%Z, "A"%string)] (0%Z, 0)).2
    = <[0 := ((0 + 1)%Z, "A"%string)]> [(0%Z, "A"%string)].
Proof.
  do 2 (split; [reflexivity|]).
  destruct (get_remove_validity [(0%Z, "A"%string)] 0%Z 0) as (_ & _ & H & _).
  destruct (H "A"%string eq_refl) as [Hslot Hsucc].
  split; [exact Hslot|exact (Hsucc eq_refl)].
Defined.

Lemma non_resurrection_witness :
  insert [] "A"%string = ((0%Z, 0), [(0%Z, "A"%string)])
  ∧ remove (run [Insert "B"%string] [(0%Z, "A"%string)]) (0%Z, 0)
    = (Some "A"%string, [(1%Z, "A"%string); (0%Z, "B"%string)])
  ∧ insert (run [Len] [(1%Z, "A"%string); (0%Z, "B"%string)]) "D"%string
    = ((2%Z, 0), [(2%Z, "D"%string); (0%Z, "B"%string)])
  ∧ (2%Z, 0).2 = (0%Z, 0).2
  ∧ ((0%Z, 0).1 < (2%Z, 0).1)%Z
  ∧ (0%Z, 0) ≠ (2%Z, 0)
  ∧ get (run [Remove (2%Z, 0); Insert "E"%string]
           [(2%Z, "D"%string); (0%Z, "B"%string)]) (0%Z, 0) = None.
Proof.
  do 4 (split; [reflexivity|]).
  apply (non_resurrection [] "A"%string "D"%string
           [Insert "B"%string] [Len] [Remove (2%Z, 0); Insert "E"%string]
           (0%Z, 0) (2%Z, 0) [(0%Z, "A"%string)] "A"%string
           [(1%Z, "A"%string); (0%Z, "B"%string)]
           [(2%Z, "D"%string); (0%Z, "B"%string)]); reflexivity.
Defined.

Lemma forged_key_revives_witness :
  (0 + 1 < max_generation)%Z
  ∧ remove [(0%Z, "A"%string)] (0%Z, 0) = (Some "A"%string, [(1%Z, "A"%string)])
  ∧ get [(1%Z, "A"%string)] (1%Z, 0) = Some "A"%string
  ∧ ∃ st2,
      remove [(1%Z, "A"%string)] (1%Z, 0) = (Some "A"%string, st2)
      ∧ st2 !! 0 = Some (2%Z, "A"%string).
Proof.
  do 2 (split; [reflexivity|]).
  destruct (forged_key_revives [(0%Z, "A"%string)] 0%Z 0 "A"%string
              [(1%Z, "A"%string)] eq_refl eq_refl)
    as (_ & Hget & st2 & Hrem & Hslot & _).
  split; [exact Hget|]. exists st2. split; [exact Hrem|exact Hslot].
Defined.

Lemma generation_parity_witness :
  reachable [(1%Z, "A"%string); (0%Z, "B"%string)]
  ∧ Z.even (insert [(1%Z, "A"%string); (0%Z, "B"%string)] "D"%string).1.1
    = true
  ∧ (0 ≤ 1)%Z
  ∧ ((∀ e c', (e, c') ∈ iter [(1%Z, "A"%string); (0%Z, "B"%string)] → e.2 ≠ 0)
     ↔ Z.odd 1 = true).
Proof.
  assert (reachable [(1%Z, "A"%string); (0%Z, "B"%string)]) as Hreach.
  { exact (reachable_step _ (Remove (0%Z, 0))
             (reachable_step _ (Insert "B"%string)
                (reachable_step _ (Insert "A"%string) reachable_new))). }
  split; [exact Hreach|].
  destruct (generation_parity _ Hreach) as (Hins & _ & Hslot).
  split; [apply Hins|].
  destruct (Hslot 0 1%Z "A"%string eq_refl) as (Hnn & _ & Hodd).
  split; [exact Hnn|exact Hodd].
Defined.

End SlotMapSpec.

(** ** Facts about the secondary map *)

Module SecondaryMapSpec.
Import SecondaryMap.
Section SecondaryMapSpec.

Context {C : Type}.
Implicit Types (a : list (@cell C)) (st : @store C) (x : @cell C) (g : Z)
  (c w : C) (i j k : nat).

(** *** Array primitives *)

(** [fill] never writes at or beyond [length]: started at [length] it writes
    nothing, whatever its end. *)
Lemma fill_from_length a x end_ : fill a x (length a) end_ = a.
Proof.
  unfold fill. replace (end_ `min` length a - length a `min` length a) with 0 by lia.
  done.
Qed.

Lemma length_array_set a i x : length (array_set a i x) = length a `max` (i + 1).
Proof.
  unfold array_set. case_decide.
  - rewrite length_insert. lia.
  - rewrite !length_app, length_replicate; simpl. lia.
Qed.

Lemma lookup_array_set_eq a i x : array_set a i x !! i = Some x.
Proof.
  unfold array_set. case_decide.
  - by apply list_lookup_insert_eq.
  - rewrite lookup_app_r by lia. apply list_lookup_middle.
    rewrite length_replicate. lia.
Qed.

Lemma lookup_array_set_lt a i j x :
  j < length a → j ≠ i → array_set a i x !! j = a !! j.
Proof.
  intros Hj Hne. unfold array_set. case_decide.
  - by rewrite list_lookup_insert_ne.
  - by rewrite lookup_app_l.
Qed.

Lemma lookup_array_set_hole a i j x :
  length a ≤ j < i → array_set a i x !! j = Some Hole.
Proof.
  intros Hj. unfold array_set. case_decide; [lia|].
  rewrite lookup_app_r by lia. rewrite lookup_app_l by (rewrite length_replicate; lia).
  apply lookup_replicate_2. lia.
Qed.

Lemma array_get_array_set_eq a i x : array_get (array_set a i x) i = x.
Proof. unfold array_get. by rewrite lookup_array_set_eq. Qed.

Lemma array_get_array_set_ne a i j x :
  j ≠ i → array_get (array_set a i x) j = array_get a j.
Proof.
  intros Hne. unfold array_get.
  destruct (decide (j < length a)) as [Hlt|Hge].
  - by rewrite lookup_array_set_lt.
  - rewrite (proj2 (lookup_ge_None a j)) by lia; simpl.
    destruct (decide (j < i)).
    + rewrite lookup_array_set_hole by lia. done.
    + rewrite (proj2 (lookup_ge_None _ j)); [done|].
      rewrite length_array_set. lia.
Qed.

(** *** The store object *)

Lemma store_get_array st i :
  array_index i → store_get st i = array_get (elems st) i.
Proof. intros Hi. unfold store_get, cell_at. by rewrite decide_True. Qed.

Lemma store_get_plain st i :
  ¬ array_index i → store_get st i = default Hole (props st !! i).
Proof. intros Hi. unfold store_get, cell_at. by rewrite decide_False. Qed.

Lemma store_set_array st i x :
  array_index i →
  store_set st i x = {| elems := array_set (elems st) i x; props := props st |}.
Proof. intros Hi. unfold store_set. by rewrite decide_True. Qed.

Lemma store_set_plain st i x :
  ¬ array_index i →
  store_set st i x = {| elems := elems st; props := <[i := x]> (props st) |}.
Proof. intros Hi. unfold store_set. by rewrite decide_False. Qed.

Lemma elems_store_set st i x :
  elems (store_set st i x) =
  if decide (array_index i) then array_set (elems st) i x else elems st.
Proof. unfold store_set. by case_decide. Qed.

Lemma props_store_set st i x :
  props (store_set st i x) =
  if decide (array_index i) then props st else <[i := x]> (props st).
Proof. unfold store_set. by case_decide. Qed.

Lemma store_get_store_set_eq st i x : store_get (store_set st i x) i = x.
Proof.
  unfold store_get, cell_at, store_set. case_decide; simpl.
  - by rewrite lookup_array_set_eq.
  - by rewrite lookup_insert_eq.
Qed.

Lemma cell_at_store_set_ne st i j x :
  j ≠ i → default Hole (cell_at (store_set st i x) j) = default Hole (cell_at st j).
Proof.
  intros Hne. unfold cell_at, store_set.
  destruct (decide (array_index i)), (decide (array_index j)); simpl; try done.
  - by apply array_get_array_set_ne.
  - by rewrite lookup_insert_ne.
Qed.

Lemma store_get_store_set_ne st i j x :
  j ≠ i → store_get (store_set st i x) j = store_get st j.
Proof. apply cell_at_store_set_ne. Qed.

(** The guarded [fill] of [insert] has no effect: [insert] is the assignment. *)
Lemma insert_store_set st (e : Z * nat) w :
  insert st e w = store_set st e.2 (Full (e.1, w)).
Proof.
  unfold insert. case_decide; [|done]. rewrite fill_from_length. by destruct st.
Qed.

(** *** [get] *)

Lemma sec_get_Some st g i c : get st (g, i) = Some c ↔ store_get st i = Full (g, c).
Proof.
  unfold get; simpl. destruct (store_get st i) as [| |[g' c']]; simpl; try done.
  destruct (Z.eqb_spec g g') as [->|Hne]; split; try done.
  - by intros [= ->].
  - by intros [= ->].
  - intros [= -> ->]. done.
Qed.

(** *** The traversal *)

Lemma sec_elem_of_iter_from k a g i c :
  ((g, i), c) ∈ iter_from k a ↔
  ∃ j, i = k + j ∧ a !! j = Some (Full (g, c)).
Proof.
  revert k. induction a as [|x rest IH]; intros k; simpl.
  - split; [by intros ?%elem_of_nil|by intros (? & _ & ?)].
  - assert ((∃ j, i = k + 1 + j ∧ rest !! j = Some (Full (g, c))) ↔
            (∃ j, i = k + S j ∧ rest !! j = Some (Full (g, c)))) as Hshift.
    { split; intros (j & -> & Hj); exists j; (split; [lia|done]). }
    destruct x as [| |[g0 c0]].
    1,2: rewrite IH, Hshift; split;
      [intros (j & -> & Hj); by exists (S j)
      |intros ([|j] & -> & Hj); simpl in Hj; [done|by exists j]].
    rewrite elem_of_cons, IH, Hshift. split.
    + intros [[= -> -> ->]|(j & -> & Hj)].
      * exists 0. split; [lia|done].
      * by exists (S j).
    + intros ([|j] & -> & Hj); simpl in Hj.
      * left. injection Hj as -> ->. do 2 f_equal. lia.
      * right. by exists j.
Qed.

Lemma sec_elem_of_iter st g i c :
  ((g, i), c) ∈ iter st ↔ elems st !! i = Some (Full (g, c)).
Proof.
  unfold iter. rewrite sec_elem_of_iter_from. split.
  - by intros (j & -> & ?).
  - intros ?. by exists i.
Qed.


(** *** Counting *)

Lemma length_iter_from_cons k x a :
  length (iter_from k (x :: a)) =
  (if truthy x then 1 else 0) + length (iter_from (k + 1) a).
Proof. by destruct x. Qed.

Lemma length_iter_from_shift k k' a :
  length (iter_from k a) = length (iter_from k' a).
Proof.
  revert k k'. induction a as [|x rest IH]; intros k k'; [done|].
  rewrite !length_iter_from_cons. f_equal. apply IH.
Qed.

Lemma length_iter_from_app k a1 a2 :
  length (iter_from k (a1 ++ a2)) =
  length (iter_from k a1) + length (iter_from k a2).
Proof.
  revert k. induction a1 as [|x rest IH]; intros k.
  - done.
  - rewrite <- app_comm_cons, !length_iter_from_cons, IH.
    rewrite (length_iter_from_shift (k + 1) k a2). lia.
Qed.

Lemma iter_from_holes k n : iter_from k (replicate n (@Hole C)) = [].
Proof. revert k. induction n as [|n IH]; intros k; simpl; [done|apply IH]. Qed.

Lemma len_length st : len st = length (iter st).
Proof. unfold len. by rewrite count_loop. Qed.

(** Assigning a cell changes the count by what the cell adds less what the
    old cell added. *)
Lemma count_array_set a i x :
  length (iter_from 0 (array_set a i x))
  + (if truthy (array_get a i) then 1 else 0) =
  length (iter_from 0 a) + (if truthy x then 1 else 0).
Proof.
  unfold array_set, array_get. case_decide as Hi.
  - destruct (lookup_lt_is_Some_2 a i Hi) as [y Hy]. rewrite Hy; simpl.
    rewrite insert_take_drop by done.
    rewrite <- (take_drop_middle a i y Hy) at 3.
    rewrite !length_iter_from_app, !length_iter_from_cons. lia.
  - rewrite (proj2 (lookup_ge_None a i)) by lia; simpl.
    rewrite !length_iter_from_app, iter_from_holes, length_iter_from_cons.
    simpl. lia.
Qed.

Lemma len_store_set st i x :
  len (store_set st i x)
  + (if decide (array_index i)
     then if truthy (array_get (elems st) i) then 1 else 0 else 0) =
  len st
  + (if decide (array_index i) then if truthy x then 1 else 0 else 0).
Proof.
  rewrite !len_length. unfold iter. rewrite elems_store_set.
  case_decide; [apply count_array_set|lia].
Qed.

(** An index that is no array index: the assignment of [insert] makes a
    plain property, and the array is as it was. *)
Lemma insert_plain st g i w :
  ¬ array_index i →
  insert st (g, i) w
  = {| elems := elems st; props := <[i := Full (g, w)]> (props st) |}.
Proof. intros Hi. rewrite insert_store_set; simpl. by apply store_set_plain. Qed.

Lemma insert_plain_new g i w :
  ¬ array_index i →
  get (insert (@new C) (g, i) w) (g, i) = Some w
  ∧ elems (insert (@new C) (g, i) w) = []
  ∧ length (elems (insert (@new C) (g, i) w))
      ≠ length (elems (@new C)) `max` (i + 1)
  ∧ elems (insert (@new C) (g, i) w) !! i ≠ Some (Full (g, w))
  ∧ iter (insert (@new C) (g, i) w) = []
  ∧ len (insert (@new C) (g, i) w) = 0.
Proof.
  intros Hi. split.
  { apply sec_get_Some. rewrite insert_store_set; simpl.
    apply store_get_store_set_eq. }
  rewrite insert_plain by done. unfold iter, len, iter; simpl.
  split_and!; [done|lia|done|done|done].
Qed.

Lemma first_plain_index_plain : ¬ array_index first_plain_index.
Proof. unfold array_index, first_plain_index, array_limit. lia. Qed.

(** *** The contract of the secondary map *)

(** C4, [insert]: for every store, entity [(g, i)] and value [w],
    [get (g, i)] returns [w] after [insert (g, i) w], whatever the index held
    before. When [i] is an array index, also one at or beyond the length of
    the array, the array grows to hold [i], the indices newly in between are
    empty, the cell at [i] becomes [(g, w)], and every other old cell and
    every plain property is kept. When [i] is no array index, the array is as
    it was and [(g, w)] is the plain property [i]. *)
Theorem insert_get st g i w :
  get (insert st (g, i) w) (g, i) = Some w
  ∧ (array_index i →
       length (elems (insert st (g, i) w)) = length (elems st) `max` (i + 1)
       ∧ elems (insert st (g, i) w) !! i = Some (Full (g, w))
       ∧ (∀ j, length (elems st) ≤ j < i →
            elems (insert st (g, i) w) !! j = Some Hole
            ∧ truthy (store_get (insert st (g, i) w) j) = false)
       ∧ (∀ j, j < length (elems st) → j ≠ i →
            elems (insert st (g, i) w) !! j = elems st !! j)
       ∧ props (insert st (g, i) w) = props st)
  ∧ (¬ array_index i →
       elems (insert st (g, i) w) = elems st
       ∧ props (insert st (g, i) w) = <[i := Full (g, w)]> (props st)
       ∧ iter (insert st (g, i) w) = iter st).
Proof.
  split; [|split].
  - apply sec_get_Some. rewrite insert_store_set; simpl.
    apply store_get_store_set_eq.
  - intros Hi. rewrite insert_store_set, store_set_array by done; simpl.
    split_and!.
    + apply length_array_set.
    + apply lookup_array_set_eq.
    + intros j Hj. split; [by apply lookup_array_set_hole|].
      assert (array_index j) as Hj'.
      { unfold array_index in *. lia. }
      rewrite store_get_array by done; simpl.
      unfold array_get. by rewrite lookup_array_set_hole.
    + intros j Hj Hne. by apply lookup_array_set_lt.
    + done.
  - intros Hi. by rewrite insert_plain.
Qed.

(** C10, frame: [insert st e w] is observable at the index of [e] only. At
    every other index [j], also one that the growth brought within bounds,
    [get] of any entity returns what it did, [iter] yields the same pairs, and
    [len] stays or goes up by one. *)
Theorem insert_frame st (e : Z * nat) w :
  (∀ g j, j ≠ e.2 → get (insert st e w) (g, j) = get st (g, j))
  ∧ (∀ g j c, j ≠ e.2 →
       ((g, j), c) ∈ iter (insert st e w) ↔ ((g, j), c) ∈ iter st)
  ∧ len st ≤ len (insert st e w) ≤ len st + 1.
Proof.
  rewrite insert_store_set. split_and!.
  - intros g j Hne. unfold get; simpl. by rewrite store_get_store_set_ne.
  - intros g j c Hne. rewrite !sec_elem_of_iter, elems_store_set.
    case_decide; [|done].
    pose proof (array_get_array_set_ne (elems st) e.2 j (Full (e.1, w)) Hne)
      as Hget.
    unfold array_get in Hget.
    destruct (array_set (elems st) e.2 (Full (e.1, w)) !! j) as [x|] eqn:E1;
      destruct (elems st !! j) as [y|] eqn:E2; simpl in Hget; subst; done.
  - pose proof (len_store_set st e.2 (Full (e.1, w))) as Hl.
    case_decide; simpl in Hl; [destruct (truthy _)|]; lia.
  - pose proof (len_store_set st e.2 (Full (e.1, w))) as Hl.
    case_decide; simpl in Hl; [destruct (truthy _)|]; lia.
Qed.

End SecondaryMapSpec.

Lemma insert_get_witness :
  array_index 3
  ∧ ¬ array_index first_plain_index
  ∧ get (insert (@new string) (4%Z, 3) "w"%string) (4%Z, 3) = Some "w"%string
  ∧ length (elems (insert (@new string) (4%Z, 3) "w"%string)) = 4
  ∧ elems (insert (@new string) (4%Z, 3) "w"%string) !! 3
    = Some (Full (4%Z, "w"%string))
  ∧ elems (insert (@new string) (0%Z, first_plain_index) "w"%string) = []
  ∧ props (insert (@new string) (0%Z, first_plain_index) "w"%string)
    = <[first_plain_index := Full (0%Z, "w"%string)]> ∅.
Proof.
  split; [reflexivity|]. split; [exact first_plain_index_plain|].
  destruct (insert_get (@new string) 4%Z 3 "w"%string) as (Hg & Ha & _).
  destruct (Ha eq_refl) as (Hl & Hi & _).
  destruct (insert_get (@new string) 0%Z first_plain_index "w"%string)
    as (_ & _ & Hp).
  destruct (Hp first_plain_index_plain) as (He & Hpr & _).
  split; [exact Hg|]. split; [exact Hl|]. split; [exact Hi|].
  split; [exact He|exact Hpr].
Defined.

(** [insert] at the first index that is no array index, into the map
    [new SecondaryMap()]: [get] returns the value, and the array did not
    grow, holds nothing at the index, and yields nothing. *)
Lemma insert_at_first_plain_index :
  get (insert (@new string) (0%Z, first_plain_index) "w"%string)
      (0%Z, first_plain_index) = Some "w"%string
  ∧ elems (insert (@new string) (0%Z, first_plain_index) "w"%string) = []
  ∧ length (elems (insert (@new string) (0%Z, first_plain_index) "w"%string))
      ≠ length (elems (@new string)) `max` (first_plain_index + 1)
  ∧ elems (insert (@new string) (0%Z, first_plain_index) "w"%string)
      !! first_plain_index ≠ Some (Full (0%Z, "w"%string))
  ∧ iter (insert (@new string) (0%Z, first_plain_index) "w"%string) = []
  ∧ len (insert (@new string) (0%Z, first_plain_index) "w"%string) = 0.
Proof. exact (insert_plain_new 0%Z first_plain_index "w"%string first_plain_index_plain). Qed.

End SecondaryMapSpec.

(** ** Traversal and counting, for both maps *)

Section Traversal.

Context {C : Type}.


End Traversal.

(** ** Further laws of the arena *)

Module SlotMapLaws.
Import SlotMap SlotMapSpec.
Section SlotMapLaws.

Context {C : Type}.
Implicit Types (st : list (Z * C)) (g : Z) (c comp : C) (i j k : nat)
  (e : Z * nat).

(** *** Counting the traversal *)

Lemma length_iter_cons k (s : Z * C) st :
  length (iter_from k (s :: st)) =
  (if even_generation s.1 then 1 else 0) + length (iter_from (k + 1) st).
Proof. simpl. by destruct (even_generation s.1). Qed.

Lemma length_iter_shift k k' st :
  length (iter_from k st) = length (iter_from k' st).
Proof.
  revert k k'. induction st as [|s rest IH]; intros k k'; [done|].
  rewrite !length_iter_cons. f_equal. apply IH.
Qed.

Lemma length_iter_app k st1 st2 :
  length (iter_from k (st1 ++ st2)) =
  length (iter_from k st1) + length (iter_from k st2).
Proof.
  revert k. induction st1 as [|s rest IH]; intros k; [done|].
  rewrite <- app_comm_cons, !length_iter_cons, IH.
  rewrite (length_iter_shift (k + 1) k st2). lia.
Qed.

Lemma arena_len_length st : len st = length (iter st).
Proof. unfold len. by rewrite count_loop. Qed.

(** Replacing one slot changes the count by the change of its parity. *)
Lemma len_insert_slot st i (s s' : Z * C) :
  st !! i = Some s →
  len (<[i := s']> st) + (if even_generation s.1 then 1 else 0) =
  len st + (if even_generation s'.1 then 1 else 0).
Proof.
  intros Hi. rewrite !arena_len_length. unfold iter.
  assert (i < length st) as Hlt by (by eapply lookup_lt_Some).
  rewrite insert_take_drop by done.
  rewrite <- (take_drop_middle st i s Hi) at 3.
  rewrite !length_iter_app, !length_iter_cons. lia.
Qed.

(** *** A slot that is occupied is left alone by everything but its removal *)

Lemma step_keeps_occupied st (o : op) i g c :
  st !! i = Some (g, c) → even_generation g = true → o ≠ Remove (g, i) →
  step st o !! i = Some (g, c).
Proof.
  intros Hi Hg Hne. destruct o as [comp|[g' i']| | | |]; simpl; try done.
  - destruct (insert_cases st comp)
      as [(i0 & g0 & c0 & Hi0 & Hg0 & _ & ->)|[_ ->]]; simpl.
    + rewrite list_lookup_insert_ne; [done|]. intros ->. congruence.
    + by apply lookup_app_l_Some.
  - destruct (remove st (g', i')) as [[x|] st'] eqn:Er; simpl.
    + apply remove_Some in Er as [Hi' ->].
      rewrite list_lookup_insert_ne; [done|]. intros ->. congruence.
    + by apply remove_None in Er as [_ ->].
Qed.

Lemma run_keeps_occupied (ops : list op) st i g c :
  st !! i = Some (g, c) → even_generation g = true → Remove (g, i) ∉ ops →
  run ops st !! i = Some (g, c).
Proof.
  revert st. induction ops as [|o ops IH]; intros st Hi Hg Hno; simpl; [done|].
  apply not_elem_of_cons in Hno as [Hne Hno].
  apply IH; [|done..]. by apply step_keeps_occupied.
Qed.

(** The slot that [insert] leaves at the index it returns. *)
Lemma insert_slot st comp :
  (insert st comp).2 !! (insert st comp).1.2
    = Some ((insert st comp).1.1, comp)
  ∧ even_generation (insert st comp).1.1 = true.
Proof.
  destruct (insert_cases st comp)
    as [(i & g & c & Hi & Hg & _ & ->)|[_ ->]]; simpl.
  - split.
    + apply list_lookup_insert_eq. by eapply lookup_lt_Some.
    + by rewrite even_generation_succ, Hg.
  - split; [by apply list_lookup_middle|done].
Qed.

(** A later [insert] at an index carries a generation above the slot's. *)
Lemma insert_above st comp i g c :
  st !! i = Some (g, c) → (insert st comp).1.2 = i →
  (g < (insert st comp).1.1)%Z.
Proof.
  intros Hi. destruct (insert_cases st comp)
    as [(i0 & g0 & c0 & Hi0 & _ & _ & ->)|[_ ->]]; simpl.
  - intros ->. rewrite Hi0 in Hi. injection Hi as <- <-. lia.
  - intros <-. apply lookup_lt_Some in Hi. lia.
Qed.

(** *** Keys *)

(** [insert] returns a key that was absent from the store it was given: no
    entity that could already be used is handed out again. *)
Theorem insert_fresh st comp : get st (insert st comp).1 = None.
Proof.
  destruct (insert_cases st comp)
    as [(i & g & c & Hi & _ & _ & ->)|[_ ->]]; simpl; apply get_None.
  - right. exists g, c. split; [done|lia].
  - by left.
Qed.

(** Two [insert]s never return the same entity, whatever public operations
    come between them: at the same index the later one carries a strictly
    greater generation. *)
Theorem insert_never_reissues st comp comp' (ops : list op) e e' st1 st2 :
  insert st comp = (e, st1) →
  insert (run ops st1) comp' = (e', st2) →
  e' ≠ e ∧ (e'.2 = e.2 → (e.1 < e'.1)%Z).
Proof.
  intros H1 H2.
  destruct (insert_slot st comp) as [Hslot _]. rewrite H1 in Hslot; simpl in Hslot.
  destruct (run_lookup_mono ops _ _ _ _ Hslot) as (g' & c' & Hg' & Hle).
  assert (e'.2 = e.2 → (e.1 < e'.1)%Z) as Hlt.
  { intros Hidx. pose proof (insert_above (run ops st1) comp' _ _ _ Hg') as Ha.
    rewrite H2 in Ha; simpl in Ha. specialize (Ha Hidx). lia. }
  split; [|done]. intros ->. specialize (Hlt eq_refl). lia.
Qed.

(** A key stays valid until it is removed: after [insert] returned [e] for
    [comp], [get e] returns [comp] after any public operations among which
    there is no [remove e]. *)
Theorem key_persists st comp (ops : list op) e st1 :
  insert st comp = (e, st1) →
  Remove e ∉ ops →
  get (run ops st1) e = Some comp.
Proof.
  intros H1 Hno. destruct (insert_slot st comp) as [Hslot Hev].
  rewrite H1 in Hslot, Hev; simpl in *. destruct e as [g i]; simpl in *.
  apply get_Some. by apply run_keeps_occupied.
Qed.

(** [iter] and [get] agree: the pairs that [iter] yields are exactly the
    entities of even generation that [get] finds, with the value it returns. *)
Theorem iter_get st e c :
  (e, c) ∈ iter st ↔ get st e = Some c ∧ Z.even e.1 = true.
Proof.
  destruct e as [g i]. rewrite elem_of_iter, get_Some; simpl.
  by rewrite even_generation_even.
Qed.

(** *** What [insert] changes *)

(** [insert] adds its pair to the traversal and changes nothing else in it;
    [len] goes up by exactly one and the map is not empty afterwards. *)
Theorem insert_iter st comp :
  (∀ p, p ∈ iter (insert st comp).2 ↔
        p ∈ iter st ∨ p = ((insert st comp).1, comp))
  ∧ len (insert st comp).2 = len st + 1
  ∧ is_empty (insert st comp).2 = false.
Proof.
  assert (len (insert st comp).2 = len st + 1) as Hlen.
  { destruct (insert_cases st comp)
      as [(i & g & c & Hi & Hg & _ & ->)|[_ ->]]; simpl.
    - pose proof (len_insert_slot st i (g, c) ((g + 1)%Z, comp) Hi) as Hl.
      simpl in Hl. rewrite even_generation_succ, Hg in Hl. simpl in Hl. lia.
    - rewrite !arena_len_length. unfold iter.
      rewrite length_iter_app. simpl. lia. }
  split_and!; [|done|].
  - intros [[g' j] c']. rewrite !elem_of_iter.
    destruct (insert_cases st comp)
      as [(i & g & c & Hi & Hg & _ & ->)|[_ ->]]; simpl.
    + assert (i < length st) as Hlt by (by eapply lookup_lt_Some).
      destruct (decide (j = i)) as [->|Hne].
      * rewrite list_lookup_insert_eq by done. split.
        -- intros [[= <- <-] _]. by right.
        -- intros [[Hj Hg']|[= -> ->]].
           ++ rewrite Hi in Hj. injection Hj as <- <-. congruence.
           ++ split; [done|]. by rewrite even_generation_succ, Hg.
      * rewrite list_lookup_insert_ne by done. split; [by left|].
        intros [?|[= _ ->]]; done.
    + rewrite lookup_app. destruct (st !! j) as [s|] eqn:Ej.
      * split; [by left|]. intros [?|[= _ -> _]]; [done|].
        apply lookup_lt_Some in Ej. lia.
      * apply lookup_ge_None in Ej. split.
        -- destruct (j - length st) as [|n] eqn:En; simpl; [|by intros [? _]].
           intros [[= <- <-] _]. right. do 2 f_equal. lia.
        -- intros [[? _]|[= -> -> ->]]; [done|].
           by rewrite Nat.sub_diag.
  - unfold is_empty. rewrite arena_len_length in Hlen.
    destruct (iter (insert st comp).2); [simpl in Hlen; lia|done].
Qed.

(** [insert] does not change what [get] returns for any entity of another
    index, nor for any entity of even generation other than the new one. *)
Theorem insert_keeps_get st comp e :
  e.2 ≠ (insert st comp).1.2 ∨ (Z.even e.1 = true ∧ e ≠ (insert st comp).1) →
  get (insert st comp).2 e = get st e.
Proof.
  destruct e as [g' j]; simpl. unfold get; simpl.
  destruct (insert_cases st comp)
    as [(i & g & c & Hi & Hg & _ & ->)|[_ ->]]; simpl.
  - assert (i < length st) as Hlt by (by eapply lookup_lt_Some).
    destruct (decide (j = i)) as [->|Hne].
    + intros [?|[Hev Hneq]]; [done|].
      rewrite list_lookup_insert_eq, Hi by done; simpl.
      rewrite <- even_generation_even in Hev.
      destruct (Z.eqb_spec g' (g + 1)) as [->|?]; [done|].
      destruct (Z.eqb_spec g' g) as [->|?]; [congruence|done].
    + intros _. by rewrite list_lookup_insert_ne.
  - destruct (decide (j = length st)) as [->|Hne].
    + intros [?|[Hev Hneq]]; [done|].
      rewrite list_lookup_middle by done.
      rewrite (proj2 (lookup_ge_None st (length st))) by lia; simpl.
      destruct (Z.eqb_spec g' 0) as [->|?]; done.
    + intros _. rewrite lookup_app. destruct (st !! j) as [s|] eqn:Ej; [done|].
      apply lookup_ge_None in Ej.
      destruct (j - length st) as [|[|n]] eqn:En; simpl; [lia|done..].
Qed.

(** *** What [remove] changes *)

(** Removing an entity that [iter] yields, of a generation below 2^53,
    returns its value, takes exactly that pair out of the traversal and lowers
    [len] by one. *)
Theorem remove_iter st e c :
  (e, c) ∈ iter st →
  (e.1 < max_generation)%Z →
  (remove st e).1 = Some c
  ∧ (∀ p, p ∈ iter (remove st e).2 ↔ p ∈ iter st ∧ p.1 ≠ e)
  ∧ len (remove st e).2 + 1 = len st.
Proof.
  destruct e as [g i]. intros [Hi Hg]%elem_of_iter Hmax. simpl in Hmax.
  assert (i < length st) as Hlt by (by eapply lookup_lt_Some).
  assert (remove st (g, i) = (Some c, <[i := ((g + 1)%Z, c)]> st)) as ->.
  { apply remove_Some. by rewrite number_succ_below. }
  simpl. split_and!; [done|..].
  - intros [[g' j] c']. rewrite !elem_of_iter; simpl.
    destruct (decide (j = i)) as [->|Hne].
    + rewrite list_lookup_insert_eq by done. split.
      * intros [[= <- <-] Hg']. rewrite even_generation_succ, Hg in Hg'. done.
      * intros [[Hj _] Hneq]. rewrite Hi in Hj. injection Hj as <- <-. done.
    + rewrite list_lookup_insert_ne by done. split; [|by intros [? _]].
      intros ?. split; [done|]. by intros [= _ ->].
  - pose proof (len_insert_slot st i (g, c) ((g + 1)%Z, c) Hi) as Hl.
    simpl in Hl. rewrite even_generation_succ, Hg in Hl. simpl in Hl. lia.
Qed.

(** [remove e] does not change what [get] returns for any entity of another
    index, nor, when [e] has an even generation, for any other entity of even
    generation. *)
Theorem remove_keeps_get st e e' :
  e'.2 ≠ e.2 ∨ (Z.even e.1 = true ∧ Z.even e'.1 = true ∧ e' ≠ e) →
  get (remove st e).2 e' = get st e'.
Proof.
  destruct e as [g i], e' as [g' j]; simpl. intros Hside.
  destruct (remove st (g, i)) as [[x|] st'] eqn:Er; simpl.
  - apply remove_Some in Er as [Hi ->].
    assert (i < length st) as Hlt by (by eapply lookup_lt_Some).
    unfold get; simpl. destruct (decide (j = i)) as [->|Hne].
    + destruct Hside as [?|(Hev & Hev' & Hneq)]; [done|].
      rewrite list_lookup_insert_eq, Hi by done; simpl.
      destruct (Z.eqb_spec g' g) as [->|Hgg]; [done|].
      destruct (Z.eqb_spec g' (number_succ g)) as [->|?]; [|done].
      destruct (number_succ_even g Hev) as [Heq|Hodd]; congruence.
    + by rewrite list_lookup_insert_ne.
  - by apply remove_None in Er as [_ ->].
Qed.

(** *** Reuse *)

(** When every slot is occupied, removing a valid entity of a generation
    below 2^53 and inserting again puts the new component into the freed slot:
    the new entity has the index of the removed one and its generation plus
    two. *)
Theorem remove_insert_reuses st e c comp :
  (∀ j s, st !! j = Some s → occupied s) →
  get st e = Some c →
  (e.1 < max_generation)%Z →
  (insert (remove st e).2 comp).1 = ((e.1 + 2)%Z, e.2).
Proof.
  destruct e as [g i]. intros Hfull Hi%get_Some Hmax; simpl in *.
  assert (i < length st) as Hlt by (by eapply lookup_lt_Some).
  assert (remove st (g, i) = (Some c, <[i := ((g + 1)%Z, c)]> st)) as ->.
  { apply remove_Some. by rewrite number_succ_below. }
  simpl. set (st' := <[i := _]> st).
  assert (∀ j s, st' !! j = Some s → even_generation s.1 = false → j = i)
    as Hvac.
  { intros j s Hj Hs. destruct (decide (j = i)) as [|Hne]; [done|].
    unfold st' in Hj. rewrite list_lookup_insert_ne in Hj by done.
    apply Hfull, occupied_iff in Hj. congruence. }
  assert (st' !! i = Some ((g + 1)%Z, c)) as Hi'
    by (by apply list_lookup_insert_eq).
  assert (even_generation (g + 1) = false) as Hodd.
  { pose proof (proj1 (occupied_iff (g, c)) (Hfull _ _ Hi)) as He.
    simpl in He. by rewrite even_generation_succ, He. }
  destruct (insert_cases st' comp)
    as [(i0 & g0 & c0 & Hi0 & Hg0 & _ & ->)|[Hall _]]; simpl.
  - pose proof (Hvac _ _ Hi0 Hg0) as ->.
    rewrite Hi' in Hi0. injection Hi0 as <- <-. f_equal. lia.
  - specialize (Hall _ _ Hi'). simpl in Hall. congruence.
Qed.

End SlotMapLaws.

(** *** The laws at concrete stores *)

Lemma insert_never_reissues_witness :
  insert [(1%Z, "A"%string)] "B"%string = ((2%Z, 0), [(2%Z, "B"%string)])
  ∧ insert (run [Remove (2%Z, 0)] [(2%Z, "B"%string)]) "C"%string
    = ((4%Z, 0), [(4%Z, "C"%string)])
  ∧ (4%Z, 0) ≠ (2%Z, 0)
  ∧ ((4%Z, 0).2 = (2%Z, 0).2 → ((2%Z, 0).1 < (4%Z, 0).1)%Z).
Proof.
  do 2 (split; [reflexivity|]).
  apply (insert_never_reissues [(1%Z, "A"%string)] "B"%string "C"%string
           [Remove (2%Z, 0)] (2%Z, 0) (4%Z, 0)
           [(2%Z, "B"%string)] [(4%Z, "C"%string)]); reflexivity.
Defined.

Lemma key_persists_witness :
  insert [(0%Z, "A"%string)] "B"%string
    = ((0%Z, 1), [(0%Z, "A"%string); (0%Z, "B"%string)])
  ∧ (Remove (0%Z, 1) ∉ [Remove (0%Z, 0); Insert "C"%string; Remove (1%Z, 1)])
  ∧ get (run [Remove (0%Z, 0); Insert "C"%string; Remove (1%Z, 1)]
           [(0%Z, "A"%string); (0%Z, "B"%string)]) (0%Z, 1) = Some "B"%string.
Proof.
  assert (Remove (0%Z, 1) ∉
          [Remove (0%Z, 0); Insert "C"%string; Remove (1%Z, 1)]) as Hno.
  { intros Hin. repeat (apply elem_of_cons in Hin as [Hin|Hin]; [discriminate|]).
    by apply elem_of_nil in Hin. }
  split; [reflexivity|]. split; [exact Hno|].
  apply (key_persists [(0%Z, "A"%string)] "B"%string _ (0%Z, 1)
           [(0%Z, "A"%string); (0%Z, "B"%string)]); [reflexivity|exact Hno].
Defined.

Lemma insert_keeps_get_witness :
  ((0%Z, 1).2 ≠ (insert [(1%Z, "A"%string); (0%Z, "B"%string)] "C"%string).1.2
   ∨ (Z.even (0%Z, 1).1 = true
      ∧ (0%Z, 1) ≠ (insert [(1%Z, "A"%string); (0%Z, "B"%string)] "C"%string).1))
  ∧ get (insert [(1%Z, "A"%string); (0%Z, "B"%string)] "C"%string).2 (0%Z, 1)
    = get [(1%Z, "A"%string); (0%Z, "B"%string)] (0%Z, 1).
Proof.
  assert ((0%Z, 1).2 ≠
          (insert [(1%Z, "A"%string); (0%Z, "B"%string)] "C"%string).1.2
          ∨ (Z.even (0%Z, 1).1 = true
             ∧ (0%Z, 1) ≠
               (insert [(1%Z, "A"%string); (0%Z, "B"%string)] "C"%string).1))
    as Hside by (left; discriminate).
  split; [exact Hside|].
  exact (insert_keeps_get [(1%Z, "A"%string); (0%Z, "B"%string)] "C"%string
           (0%Z, 1) Hside).
Defined.

Lemma remove_iter_witness :
  ((0%Z, 1), "B"%string) ∈ iter [(0%Z, "A"%string); (0%Z, "B"%string)]
  ∧ ((0%Z, 1).1 < max_generation)%Z
  ∧ (remove [(0%Z, "A"%string); (0%Z, "B"%string)] (0%Z, 1)).1
    = Some "B"%string
  ∧ len (remove [(0%Z, "A"%string); (0%Z, "B"%string)] (0%Z, 1)).2 + 1
    = len [(0%Z, "A"%string); (0%Z, "B"%string)].
Proof.
  assert (((0%Z, 1), "B"%string)
          ∈ iter [(0%Z, "A"%string); (0%Z, "B"%string)]) as Hin.
  { apply list_elem_of_further, list_elem_of_here. }
  split; [exact Hin|]. split; [reflexivity|].
  destruct (remove_iter _ _ _ Hin eq_refl) as (Hr & _ & Hl).
  split; [exact Hr|exact Hl].
Defined.

Lemma remove_keeps_get_witness :
  ((2%Z, 0).2 ≠ (0%Z, 0).2
   ∨ (Z.even (0%Z, 0).1 = true ∧ Z.even (2%Z, 0).1 = true
      ∧ (2%Z, 0) ≠ (0%Z, 0)))
  ∧ get (remove [(0%Z, "A"%string)] (0%Z, 0)).2 (2%Z, 0)
    = get [(0%Z, "A"%string)] (2%Z, 0).
Proof.
  assert ((2%Z, 0).2 ≠ (0%Z, 0).2
          ∨ (Z.even (0%Z, 0).1 = true ∧ Z.even (2%Z, 0).1 = true
             ∧ (2%Z, 0) ≠ (0%Z, 0))) as Hside.
  { right. split; [reflexivity|]. split; [reflexivity|discriminate]. }
  split; [exact Hside|].
  exact (remove_keeps_get [(0%Z, "A"%string)] (0%Z, 0) (2%Z, 0) Hside).
Defined.

Lemma remove_insert_reuses_witness :
  (∀ j s, [(0%Z, "A"%string); (2%Z, "B"%string)] !! j = Some s → occupied s)
  ∧ get [(0%Z, "A"%string); (2%Z, "B"%string)] (2%Z, 1) = Some "B"%string
  ∧ ((2%Z, 1).1 < max_generation)%Z
  ∧ (insert (remove [(0%Z, "A"%string); (2%Z, "B"%string)] (2%Z, 1)).2
       "C"%string).1 = ((2 + 2)%Z, 1).
Proof.
  assert (∀ j s, [(0%Z, "A"%string); (2%Z, "B"%string)] !! j = Some s →
                 occupied s) as Hfull.
  { intros [|[|j]] s Hs; [injection Hs as <-; reflexivity..|discriminate]. }
  split; [exact Hfull|]. do 2 (split; [reflexivity|]).
  exact (remove_insert_reuses [(0%Z, "A"%string); (2%Z, "B"%string)]
           (2%Z, 1) "B"%string "C"%string Hfull eq_refl eq_refl).
Defined.

End SlotMapLaws.

(** ** Further laws of the secondary map *)

Module SecondaryMapLaws.
Import SecondaryMap SecondaryMapSpec SecondaryRun.
Section SecondaryMapLaws.

Context {C : Type}.
Implicit Types (a : list (@cell C)) (st : @store C) (x : @cell C) (g : Z)
  (c w : C) (i j k : nat) (e : Z * nat).

Lemma store_get_Full st i (s : Z * C) :
  store_get st i = Full s ↔ cell_at st i = Some (Full s).
Proof.
  unfold store_get. destruct (cell_at st i) as [y|]; simpl; [|done].
  split; [by intros ->|by intros [= ->]].
Qed.

Lemma sec_remove_Some st g i c st' :
  remove st (g, i) = (Some c, st') ↔
  cell_at st i = Some (Full (g, c)) ∧ st' = store_set st i Null.
Proof.
  unfold remove; simpl. rewrite <- store_get_Full.
  destruct (store_get st i) as [| |[g' c']] eqn:E; simpl;
    [split; [done|by intros [? _]]..|].
  destruct (Z.eqb_spec g g') as [->|Hne]; split.
  - by intros [= -> <-].
  - by intros [[= ->] ->].
  - done.
  - intros [[= <- <-] _]. done.
Qed.

Lemma sec_remove_None st e st' :
  remove st e = (None, st') ↔ get st e = None ∧ st' = st.
Proof.
  unfold remove, get. destruct (store_get st e.2) as [| |[g' c']]; simpl.
  1,2: split; [by intros [= <-]|by intros [_ ->]].
  destruct (e.1 =? g')%Z; split; try done.
  - by intros [? _].
  - by intros [= <-].
  - by intros [_ ->].
Qed.

Lemma sec_remove_fst st e : (remove st e).1 = get st e.
Proof.
  unfold remove, get. destruct (store_get st e.2) as [| |[g' c']]; simpl;
    [done..|]. by destruct (e.1 =? g')%Z.
Qed.

(** Writing at an index below the length keeps the length. *)
Lemma length_array_set_lt a i x :
  i < length a → array_set a i x = <[i := x]> a.
Proof. intros Hi. unfold array_set. by rewrite decide_True. Qed.

(** Clearing the cell of a property that exists: an element is overwritten in
    place, and a plain property is overwritten. *)
Lemma store_set_present st i y x :
  cell_at st i = Some y →
  store_set st i x =
  if decide (array_index i)
  then {| elems := <[i := x]> (elems st); props := props st |}
  else {| elems := elems st; props := <[i := x]> (props st) |}.
Proof.
  unfold cell_at, store_set. case_decide; [|done].
  intros Hy%lookup_lt_Some. by rewrite length_array_set_lt.
Qed.

(** *** Validity *)

(** [get] and [remove] of the secondary map are absent exactly when the array
    object has no property at the index (for an array index: it is at or
    beyond the length), or the cell there is a hole or [null], or it is filled
    with another generation; [remove] returns what [get] returns, clears the
    cell to [null] when that is a value (the element of an array index, the
    plain property otherwise), and otherwise leaves the store as it is. *)
Theorem secondary_validity st g i :
  (get st (g, i) = None ↔
     cell_at st i = None ∨ cell_at st i = Some Hole ∨ cell_at st i = Some Null
     ∨ ∃ g' c', cell_at st i = Some (Full (g', c')) ∧ g' ≠ g)
  ∧ (array_index i → (cell_at st i = None ↔ length (elems st) ≤ i))
  ∧ (remove st (g, i)).1 = get st (g, i)
  ∧ (∀ c, get st (g, i) = Some c →
       cell_at st i = Some (Full (g, c))
       ∧ (remove st (g, i)).2 =
         if decide (array_index i)
         then {| elems := <[i := Null]> (elems st); props := props st |}
         else {| elems := elems st; props := <[i := Null]> (props st) |})
  ∧ (get st (g, i) = None → (remove st (g, i)).2 = st).
Proof.
  split_and!.
  - unfold get, store_get; simpl.
    destruct (cell_at st i) as [[| |[g' c']]|] eqn:E; simpl.
    + split; [by auto|done].
    + split; [by auto|done].
    + destruct (Z.eqb_spec g g') as [->|Hne]; split; try done.
      * intros [?|[?|[?|(? & ? & [= <- <-] & ?)]]]; done.
      * intros _. do 3 right. by exists g', c'.
    + split; [by left|done].
  - intros Hi. unfold cell_at. rewrite decide_True by done.
    apply lookup_ge_None.
  - apply sec_remove_fst.
  - intros c Hc. destruct (remove st (g, i)) as [r st'] eqn:Er.
    pose proof (sec_remove_fst st (g, i)) as Hf. rewrite Er, Hc in Hf.
    simpl in Hf; subst r. apply sec_remove_Some in Er as [Hi ->].
    split; [done|]. by eapply store_set_present.
  - intros Hn. destruct (remove st (g, i)) as [r st'] eqn:Er.
    pose proof (sec_remove_fst st (g, i)) as Hf. rewrite Er, Hn in Hf.
    simpl in Hf; subst r. by apply sec_remove_None in Er as [_ ->].
Qed.

(** After [insert st (g, i) w] the index [i] answers to the generation [g]
    only: [get (g', i)] is [w] when [g' = g] and absent otherwise, whatever
    the cell held before. *)
Theorem insert_overwrites st g g' i w :
  get (insert st (g, i) w) (g', i) = if (g' =? g)%Z then Some w else None.
Proof.
  rewrite insert_store_set; simpl. unfold get; simpl.
  by rewrite store_get_store_set_eq.
Qed.

(** *** What [remove] changes *)

(** A [remove] that succeeds clears the cell: afterwards [get] at that index
    is absent for every generation, a second [remove] is absent, the length of
    the array is the same, and the other cells and properties are kept. [len]
    is one less when the index is an array index; it is the same when the
    association was a plain property, which [len] never counted. *)
Theorem remove_clears st e c :
  get st e = Some c →
  (remove st e).1 = Some c
  ∧ (∀ g, get (remove st e).2 (g, e.2) = None)
  ∧ (remove (remove st e).2 e).1 = None
  ∧ length (elems (remove st e).2) = length (elems st)
  ∧ (array_index e.2 → len (remove st e).2 + 1 = len st)
  ∧ (¬ array_index e.2 → len (remove st e).2 = len st)
  ∧ (∀ j, j ≠ e.2 →
       elems (remove st e).2 !! j = elems st !! j
       ∧ props (remove st e).2 !! j = props st !! j).
Proof.
  destruct e as [g i]. intros Hget.
  pose proof Hget as Hi. apply sec_get_Some, store_get_Full in Hi.
  assert (remove st (g, i) = (Some c, store_set st i Null)) as ->
    by (by apply sec_remove_Some).
  simpl.
  assert (∀ g0, get (store_set st i Null) (g0, i) = None) as Hnone.
  { intros g0. unfold get; simpl. by rewrite store_get_store_set_eq. }
  pose proof (len_store_set st i Null) as Hl.
  rewrite (store_set_present st i _ Null Hi) in Hl, Hnone |- *.
  unfold cell_at in Hi.
  split_and!; [done|done|..].
  - by rewrite sec_remove_fst.
  - case_decide; simpl; [apply length_insert|done].
  - intros Ha. rewrite !decide_True in Hl by done.
    rewrite decide_True in Hi by done. rewrite decide_True by done.
    unfold array_get in Hl. rewrite Hi in Hl. simpl in Hl. lia.
  - intros Ha. rewrite !decide_False in Hl by done.
    rewrite decide_False by done. lia.
  - intros j Hne. case_decide; simpl.
    + by rewrite list_lookup_insert_ne.
    + by rewrite lookup_insert_ne.
Qed.

(** [remove e], whether it succeeds or not, changes nothing at another index:
    [get] returns what it did and [iter] yields the same pairs there. *)
Theorem remove_frame st e :
  (∀ g j, j ≠ e.2 → get (remove st e).2 (g, j) = get st (g, j))
  ∧ (∀ g j c, j ≠ e.2 →
       ((g, j), c) ∈ iter (remove st e).2 ↔ ((g, j), c) ∈ iter st).
Proof.
  destruct e as [ge ie]; simpl.
  destruct (remove st (ge, ie)) as [[x|] st'] eqn:Er; simpl.
  - apply sec_remove_Some in Er as [Hi ->]. split.
    + intros g j Hne. unfold get; simpl.
      by rewrite store_get_store_set_ne.
    + intros g j c Hne. rewrite !sec_elem_of_iter.
      rewrite (store_set_present st ie _ Null Hi).
      case_decide; simpl; [|done]. by rewrite list_lookup_insert_ne.
  - by apply sec_remove_None in Er as [_ ->].
Qed.

(** Insert then remove: [remove] returns the value just inserted, for every
    store and entity, the index is absent for every generation after, and the
    array is as long as [insert] left it: when the index is an array index,
    the greater of the old length and the index plus one, and the old length
    otherwise. *)
Theorem insert_remove st e w :
  (remove (insert st e w) e).1 = Some w
  ∧ (∀ g, get (remove (insert st e w) e).2 (g, e.2) = None)
  ∧ length (elems (remove (insert st e w) e).2) =
    if decide (array_index e.2) then length (elems st) `max` (e.2 + 1)
    else length (elems st).
Proof.
  destruct e as [g i]; simpl.
  assert (cell_at (insert st (g, i) w) i = Some (Full (g, w))) as Hi.
  { apply store_get_Full. rewrite insert_store_set. simpl.
    apply store_get_store_set_eq. }
  assert (remove (insert st (g, i) w) (g, i)
          = (Some w, store_set (insert st (g, i) w) i Null)) as ->
    by (by apply sec_remove_Some).
  simpl. split_and!; [done|..].
  - intros g0. unfold get; simpl. by rewrite store_get_store_set_eq.
  - rewrite (store_set_present _ i _ Null Hi).
    rewrite insert_store_set; simpl. unfold store_set.
    case_decide; simpl; [|done].
    rewrite length_insert. apply length_array_set.
Qed.

(** *** The length of the store *)

Lemma length_step st (o : @op C) :
  length (elems (step st o)) = length (elems st) `max` high_water [o].
Proof.
  destruct o as [[g i] w|e| | | |]; simpl; try lia.
  - rewrite insert_store_set, elems_store_set; simpl.
    case_decide; [|lia]. rewrite length_array_set. lia.
  - destruct (remove st e) as [[y|] st'] eqn:Er; simpl.
    + destruct e as [g i]. apply sec_remove_Some in Er as [Hi ->].
      rewrite (store_set_present st i _ Null Hi).
      case_decide; simpl; [rewrite length_insert|]; lia.
    + apply sec_remove_None in Er as [_ ->]. lia.
Qed.

Lemma high_water_cons (o : @op C) ops :
  high_water (o :: ops) = high_water [o] `max` high_water ops.
Proof. destruct o; simpl; try case_decide; lia. Qed.

(** The array of a secondary map only grows, and exactly as far as the array
    indices inserted: after any public operations its length is the greater
    of its old length and the highest array index inserted plus one; an
    [insert] at an index that is no array index does not count. A map built
    from [new SecondaryMap()] is therefore exactly as long as the highest
    array index ever inserted, plus one, and [remove] never shrinks it. *)
Theorem length_high_water (ops : list (@op C)) st :
  length (elems (run ops st)) = length (elems st) `max` high_water ops
  ∧ length (elems (run ops new)) = high_water ops.
Proof.
  assert (∀ st', length (elems (run ops st'))
                 = length (elems st') `max` high_water ops) as Hrun.
  { induction ops as [|o ops IH]; intros st'.
    - simpl. lia.
    - unfold run in *; simpl fold_left. rewrite IH, length_step.
      rewrite (high_water_cons o ops). lia. }
  split; [apply Hrun|]. rewrite Hrun. simpl. lia.
Qed.

End SecondaryMapLaws.

Lemma remove_clears_witness :
  get {| elems := [Hole; Full (2%Z, "w"%string)]; props := ∅ |} (2%Z, 1)
    = Some "w"%string
  ∧ (remove {| elems := [Hole; Full (2%Z, "w"%string)]; props := ∅ |}
       (2%Z, 1)).1 = Some "w"%string
  ∧ (∀ g, get (remove {| elems := [Hole; Full (2%Z, "w"%string)]; props := ∅ |}
                 (2%Z, 1)).2 (g, (2%Z, 1).2) = None)
  ∧ length (elems (remove {| elems := [Hole; Full (2%Z, "w"%string)];
                             props := ∅ |} (2%Z, 1)).2) = 2.
Proof.
  split; [reflexivity|].
  destruct (remove_clears {| elems := [Hole; Full (2%Z, "w"%string)];
                             props := ∅ |} (2%Z, 1)
              "w"%string eq_refl) as (Hr & Hg & _ & Hl & _).
  split; [exact Hr|]. split; [exact Hg|exact Hl].
Defined.

End SecondaryMapLaws.

(** ** The arena and the secondary map together *)

Section Together.

Context {C W : Type}.

(** A value attached to an entity is not seen by a later entity of the same
    index: when the arena issued [e], [e] was used as the key of [w] in a
    secondary map, and the arena later (after a removal, necessarily) issued
    [e'] for the index of [e], the secondary map still returns [w] for [e] and
    is absent for [e']. *)
Theorem stale_association (st : list (Z * C)) (am : @SecondaryMap.store W)
    comp comp' w (ops : list SlotMap.op) (e e' : Z * nat) st1 st2 :
  SlotMap.insert st comp = (e, st1) →
  SlotMap.insert (SlotMap.run ops st1) comp' = (e', st2) →
  e'.2 = e.2 →
  SecondaryMap.get (SecondaryMap.insert am e w) e = Some w
  ∧ SecondaryMap.get (SecondaryMap.insert am e w) e' = None.
Proof.
  intros H1 H2 Hidx.
  destruct (SlotMapLaws.insert_slot st comp) as [Hslot _].
  rewrite H1 in Hslot; simpl in Hslot.
  destruct (SlotMapSpec.run_lookup_mono ops _ _ _ _ Hslot)
    as (g' & c' & Hg' & Hle).
  pose proof (SlotMapLaws.insert_above (SlotMap.run ops st1) comp' _ _ _ Hg')
    as Ha.
  rewrite H2 in Ha; simpl in Ha. specialize (Ha Hidx).
  rewrite SecondaryMapSpec.insert_store_set.
  destruct e as [g i], e' as [g2 i2]; simpl in *; subst i2.
  unfold SecondaryMap.get; simpl.
  rewrite SecondaryMapSpec.store_get_store_set_eq; simpl.
  rewrite Z.eqb_refl. split; [done|].
  destruct (Z.eqb_spec g2 g); [lia|done].
Qed.

End Together.

Lemma stale_association_witness :
  SlotMap.insert [] "cat"%string = ((0%Z, 0), [(0%Z, "cat"%string)])
  ∧ SlotMap.insert
      (SlotMap.run [SlotMap.Remove (0%Z, 0)] [(0%Z, "cat"%string)])
      "dog"%string = ((2%Z, 0), [(2%Z, "dog"%string)])
  ∧ (2%Z, 0).2 = (0%Z, 0).2
  ∧ SecondaryMap.get (SecondaryMap.insert SecondaryMap.new (0%Z, 0) 7) (0%Z, 0)
    = Some 7
  ∧ SecondaryMap.get (SecondaryMap.insert SecondaryMap.new (0%Z, 0) 7) (2%Z, 0)
    = None.
Proof.
  do 3 (split; [reflexivity|]).
  apply (stale_association [] SecondaryMap.new "cat"%string "dog"%string 7
           [SlotMap.Remove (0%Z, 0)] (0%Z, 0) (2%Z, 0)
           [(0%Z, "cat"%string)] [(2%Z, "dog"%string)]); reflexivity.
Defined.

(** ** The doubly-linked list *)

Module DListSpec.
Import DListRepr.
Section DListSpec.

Context {T : Type}.
Implicit Types (m : list (Z * @DList.Node T)) (nd : @DList.Node T)
  (k h : Z * nat) (key : option (Z * nat)) (kxs : list ((Z * nat) * T))
  (l : @DList.List T) (sel : @DList.Node T → option (Z * nat)).

(** *** Stores of nodes *)

Lemma valid_lookup m k nd :
  SlotMap.get m k = Some nd ↔ m !! k.2 = Some (k.1, nd).
Proof. destruct k as [g i]. apply SlotMapSpec.get_Some. Qed.

Lemma valid_index m k k' nd nd' :
  SlotMap.get m k = Some nd → SlotMap.get m k' = Some nd' →
  k.2 = k'.2 → k = k'.
Proof.
  rewrite !valid_lookup. intros Hk Hk' Heq. rewrite Heq in Hk.
  rewrite Hk' in Hk. injection Hk as Hg _.
  destruct k, k'; simpl in *; by subst.
Qed.

Lemma dead_get m k : dead m k → SlotMap.get m k = None.
Proof.
  intros (g & nd & Hi & Hlt). destruct k as [gk i]; simpl in *.
  by eapply SlotMapSpec.get_stale.
Qed.

Lemma dead_not_valid m k nd : dead m k → SlotMap.get m k = Some nd → False.
Proof. intros Hd%dead_get. congruence. Qed.

Lemma grows_refl m : grows m m.
Proof. intros i g nd Hi. exists g, nd. split; [done|lia]. Qed.

Lemma grows_trans m1 m2 m3 : grows m1 m2 → grows m2 m3 → grows m1 m3.
Proof.
  intros H12 H23 i g nd Hi.
  destruct (H12 _ _ _ Hi) as (g2 & nd2 & H2 & Hle2).
  destruct (H23 _ _ _ H2) as (g3 & nd3 & H3 & Hle3).
  exists g3, nd3. split; [done|lia].
Qed.

Lemma grows_insert m nd : grows m (SlotMap.insert m nd).2.
Proof. intros i g nd' Hi. by eapply SlotMapSpec.insert_lookup_mono. Qed.

Lemma grows_remove m k : grows m (SlotMap.remove m k).2.
Proof. intros i g nd' Hi. by eapply SlotMapSpec.remove_lookup_mono. Qed.

Lemma dead_grows m m' k : grows m m' → dead m k → dead m' k.
Proof.
  intros Hg (g & nd & Hi & Hlt).
  destruct (Hg _ _ _ Hi) as (g' & nd' & Hi' & Hle).
  exists g', nd'. split; [done|lia].
Qed.

Lemma gone_grows m m' key : grows m m' → gone m key → gone m' key.
Proof. destruct key as [k|]; [apply dead_grows|done]. Qed.

Lemma gone_get m k : gone m (Some k) → SlotMap.get m k = None.
Proof. apply dead_get. Qed.

(** *** Assignments to the fields of a node *)

Lemma set_prev_upd m h key :
  DList.set_prev m h key
  = upd (λ nd, {| DList.value := DList.value nd; DList.prev := key;
                  DList.next := DList.next nd |}) m h.
Proof. done. Qed.

Lemma set_next_upd m h key :
  DList.set_next m h key
  = upd (λ nd, {| DList.value := DList.value nd; DList.prev := DList.prev nd;
                  DList.next := key |}) m h.
Proof. done. Qed.

Lemma get_upd_eq f m h nd :
  SlotMap.get m h = Some nd → SlotMap.get (upd f m h) h = Some (f nd).
Proof.
  rewrite !valid_lookup. intros Hh. unfold upd.
  rewrite list_lookup_alter_eq, Hh. done.
Qed.

Lemma get_upd_ne f m h k : k.2 ≠ h.2 → SlotMap.get (upd f m h) k = SlotMap.get m k.
Proof.
  intros Hne. unfold SlotMap.get, upd.
  by rewrite list_lookup_alter_ne by done.
Qed.

Lemma get_upd_Some f m h k nd :
  SlotMap.get (upd f m h) k = Some nd → ∃ nd0, SlotMap.get m k = Some nd0.
Proof.
  rewrite valid_lookup. unfold upd. intros Hk.
  destruct (decide (k.2 = h.2)) as [Heq|Hne].
  - rewrite Heq, list_lookup_alter_eq in Hk.
    destruct (m !! h.2) as [[g nd0]|] eqn:E; [|done].
    simpl in Hk. injection Hk as Hg _. exists nd0.
    apply valid_lookup. rewrite Heq, E. by rewrite Hg.
  - rewrite list_lookup_alter_ne in Hk by done.
    exists nd. by apply valid_lookup.
Qed.

Lemma grows_upd f m h : grows m (upd f m h).
Proof.
  intros i g nd Hi. unfold upd.
  destruct (decide (i = h.2)) as [->|Hne].
  - rewrite list_lookup_alter_eq, Hi. simpl. eexists _, _. split; [done|lia].
  - rewrite list_lookup_alter_ne by done. exists g, nd. split; [done|lia].
Qed.

(** *** What [insert] and [remove] keep *)

Lemma get_insert_keep m nd0 k nd :
  SlotMap.get m k = Some nd → Z.even k.1 = true →
  SlotMap.get (SlotMap.insert m nd0).2 k = Some nd.
Proof.
  rewrite !valid_lookup. intros Hk Hev.
  apply (SlotMapLaws.step_keeps_occupied m (SlotMap.Insert nd0)); [done| |done].
  by rewrite SlotMapSpec.even_generation_even.
Qed.

Lemma get_remove_keep m k0 k nd :
  SlotMap.get m k = Some nd → Z.even k.1 = true → k ≠ k0 →
  SlotMap.get (SlotMap.remove m k0).2 k = Some nd.
Proof.
  rewrite !valid_lookup. intros Hk Hev Hne.
  apply (SlotMapLaws.step_keeps_occupied m (SlotMap.Remove k0)); [done|..].
  - by rewrite SlotMapSpec.even_generation_even.
  - intros [= Heq]. apply Hne. rewrite Heq. by destruct k.
Qed.

(** After a valid key of even generation below 2^53 is removed it is dead,
    and no key of even generation is valid at its index. *)
Lemma remove_valid m k nd :
  SlotMap.get m k = Some nd → (k.1 < SlotMap.max_generation)%Z →
  SlotMap.remove m k = (Some nd, <[k.2 := ((k.1 + 1)%Z, nd)]> m).
Proof.
  destruct k as [g i]. intros ?%SlotMapSpec.get_Some Hmax.
  apply SlotMapSpec.remove_Some. by rewrite SlotMapSpec.number_succ_below.
Qed.

Lemma remove_dead m k nd :
  SlotMap.get m k = Some nd → (k.1 < SlotMap.max_generation)%Z →
  dead (SlotMap.remove m k).2 k.
Proof.
  intros Hk Hmax. rewrite (remove_valid _ _ _ Hk Hmax); simpl.
  apply valid_lookup in Hk. exists (k.1 + 1)%Z, nd. split; [|lia].
  apply list_lookup_insert_eq. by eapply lookup_lt_Some.
Qed.

Lemma remove_owned m k0 nd0 k nd :
  SlotMap.get m k0 = Some nd0 → Z.even k0.1 = true →
  (k0.1 < SlotMap.max_generation)%Z →
  SlotMap.get (SlotMap.remove m k0).2 k = Some nd → Z.even k.1 = true →
  SlotMap.get m k = Some nd ∧ k ≠ k0.
Proof.
  intros Hk0 Hev0 Hmax. rewrite (remove_valid _ _ _ Hk0 Hmax); simpl.
  rewrite !valid_lookup. intros Hk Hev.
  apply valid_lookup in Hk0.
  assert (k0.2 < length m) as Hlt by (by eapply lookup_lt_Some).
  destruct (decide (k.2 = k0.2)) as [Heq|Hne].
  - rewrite Heq, list_lookup_insert_eq in Hk by done.
    injection Hk as Hg _. rewrite <- Hg in Hev.
    rewrite Z.add_1_r, Z.even_succ, <- Z.negb_even, Hev0 in Hev. done.
  - rewrite list_lookup_insert_ne in Hk by done. split; [done|].
    intros ->. done.
Qed.

Lemma insert_new_key m nd0 :
  SlotMap.get m (SlotMap.insert m nd0).1 = None
  ∧ SlotMap.get (SlotMap.insert m nd0).2 (SlotMap.insert m nd0).1 = Some nd0
  ∧ Z.even (SlotMap.insert m nd0).1.1 = true.
Proof.
  destruct (SlotMapLaws.insert_slot m nd0) as [Hslot Hev].
  rewrite SlotMapSpec.even_generation_even in Hev. split_and!; [|by apply valid_lookup|done].
  destruct (SlotMapSpec.insert_cases m nd0)
    as [(i & g & c & Hi & _ & _ & ->)|[_ ->]]; simpl; apply SlotMapSpec.get_None.
  - right. exists g, c. split; [done|lia].
  - by left.
Qed.

Lemma insert_owned m nd0 k nd :
  SlotMap.get (SlotMap.insert m nd0).2 k = Some nd →
  k = (SlotMap.insert m nd0).1 ∨ SlotMap.get m k = Some nd.
Proof.
  rewrite !valid_lookup.
  destruct (SlotMapSpec.insert_cases m nd0)
    as [(i & g & c & Hi & _ & _ & ->)|[_ ->]]; simpl.
  - destruct (decide (k.2 = i)) as [Heq|Hne].
    + rewrite Heq, list_lookup_insert_eq by (by eapply lookup_lt_Some).
      intros [= Hg _]. left. destruct k; simpl in *. by subst.
    + rewrite list_lookup_insert_ne by done. by right.
  - rewrite lookup_app. destruct (m !! k.2) as [s|] eqn:E; [by right|].
    apply lookup_ge_None in E.
    destruct (k.2 - length m) as [|n] eqn:En; simpl; [|done].
    intros [= Hg _]. left. destruct k; simpl in *. f_equal; [done|lia].
Qed.

(** *** Segments *)

Lemma seg_app sel m start kxs1 kxs2 (P : option (Z * nat) → Prop) :
  seg sel m start (kxs1 ++ kxs2) P ↔
  seg sel m start kxs1 (λ s, seg sel m s kxs2 P).
Proof.
  revert start. induction kxs1 as [|[k x] rest IH]; intros start; simpl; [done|].
  split; intros (-> & nd & Hk & Hx & Hseg); (split; [done|]);
    exists nd; split_and!; try done; by apply IH.
Qed.

Lemma seg_frame sel m m' start kxs (P P' : option (Z * nat) → Prop) :
  (∀ k nd, k ∈ kxs.*1 → SlotMap.get m k = Some nd →
     ∃ nd', SlotMap.get m' k = Some nd'
            ∧ DList.value nd' = DList.value nd ∧ sel nd' = sel nd) →
  (∀ s, P s → P' s) →
  seg sel m start kxs P → seg sel m' start kxs P'.
Proof.
  revert start. induction kxs as [|[k x] rest IH]; intros start Hkeep HP; simpl.
  - apply HP.
  - intros (-> & nd & Hk & Hx & Hseg). split; [done|].
    destruct (Hkeep k nd) as (nd' & Hk' & Hv & Hs); [by left|done|].
    exists nd'. split_and!; [done|congruence|].
    rewrite Hs. apply IH; [|done..].
    intros k0 nd0 Hin. apply Hkeep. by right.
Qed.

Lemma seg_valid sel m start kxs (P : option (Z * nat) → Prop) k x :
  seg sel m start kxs P → (k, x) ∈ kxs →
  ∃ nd, SlotMap.get m k = Some nd ∧ DList.value nd = x.
Proof.
  revert start. induction kxs as [|[k0 x0] rest IH]; intros start; simpl.
  - by intros _ ?%elem_of_nil.
  - intros (-> & nd & Hk & Hx & Hseg) [[= -> ->]|Hin]%elem_of_cons; eauto.
Qed.

Lemma seg_valid_key sel m start kxs (P : option (Z * nat) → Prop) k :
  seg sel m start kxs P → k ∈ kxs.*1 → ∃ nd, SlotMap.get m k = Some nd.
Proof.
  intros Hseg ([k' x] & -> & Hin)%list_elem_of_fmap.
  destruct (seg_valid _ _ _ _ _ _ _ Hseg Hin) as (nd & ? & _). eauto.
Qed.

(** *** Well-formed stores *)

Lemma wf_mirror fwd bwd m hd tl kxs :
  wf fwd bwd m hd tl kxs → wf bwd fwd m tl hd (reverse kxs).
Proof.
  intros (Hf & Hb & Hnd & Hev & Hown). split_and!.
  - done.
  - by rewrite reverse_involutive.
  - by rewrite fmap_reverse, reverse_Permutation.
  - intros k. rewrite fmap_reverse, elem_of_reverse. apply Hev.
  - intros k nd ? ?. rewrite fmap_reverse, elem_of_reverse. by eapply Hown.
Qed.

(** Removing the first key of a well-formed store leaves the rest
    well-formed, from the link of the removed node on. *)
Lemma wf_pop fwd bwd m hd tl k x rest :
  wf fwd bwd m hd tl ((k, x) :: rest) →
  (k.1 < SlotMap.max_generation)%Z →
  hd = Some k
  ∧ ∃ nd, SlotMap.get m k = Some nd ∧ DList.value nd = x
          ∧ wf fwd bwd (SlotMap.remove m k).2 (fwd nd) tl rest.
Proof.
  intros (Hf & Hb & Hnd & Hev & Hown) Hmax. simpl in Hf.
  destruct Hf as (-> & nd & Hk & Hx & Hf). split; [done|].
  exists nd. split_and!; [done..|].
  rewrite fmap_cons in Hnd. apply NoDup_cons in Hnd as [Hnotin Hnd]. simpl in Hnotin.
  assert (Z.even k.1 = true) as Hevk by (apply Hev; by left).
  assert (∀ k' nd', k' ∈ rest.*1 → SlotMap.get m k' = Some nd' →
            SlotMap.get (SlotMap.remove m k).2 k' = Some nd') as Hkeep.
  { intros k' nd' Hin Hk'. apply get_remove_keep; [done| |].
    - apply Hev. by right.
    - intros ->. done. }
  split_and!.
  - eapply seg_frame; [| |exact Hf].
    + intros k' nd' Hin Hk'. exists nd'. split_and!; [by apply Hkeep|done..].
    + intros s. apply gone_grows, grows_remove.
  - rewrite reverse_cons in Hb. apply seg_app in Hb.
    eapply seg_frame; [| |exact Hb].
    + intros k' nd' Hin Hk'. rewrite fmap_reverse, elem_of_reverse in Hin.
      exists nd'. split_and!; [by apply Hkeep|done..].
    + simpl. intros s (-> & _). simpl. by eapply remove_dead.
  - done.
  - intros k' Hin. apply Hev. by right.
  - intros k' nd' Hk' Hev'.
    destruct (remove_owned _ _ _ _ _ Hk Hevk Hmax Hk' Hev') as [Hold Hne].
    specialize (Hown _ _ Hold Hev'). rewrite fmap_cons in Hown.
    apply elem_of_cons in Hown as [->|?]; done.
Qed.

Lemma wf_nil fwd bwd m hd tl :
  wf fwd bwd m hd tl [] → gone m hd ∧ gone m tl.
Proof. by intros (Hf & Hb & _). Qed.

(** Inserting a node in front of a well-formed store, linked forwards to the
    old first key, and setting the backward link of the old first node to the
    new key, gives a well-formed store; when there was no first node the new
    key is both ends. *)
Lemma wf_push fwd bwd (f : @DList.Node T → @DList.Node T) m hd tl kxs nd0 :
  wf fwd bwd m hd tl kxs →
  fwd nd0 = hd → bwd nd0 = None →
  (∀ nd, DList.value (f nd) = DList.value nd) →
  (∀ nd, fwd (f nd) = fwd nd) →
  (∀ nd, bwd (f nd) = Some (SlotMap.insert m nd0).1) →
  match hd with
  | Some h =>
      match SlotMap.get (SlotMap.insert m nd0).2 h with
      | Some _ =>
          wf fwd bwd (upd f (SlotMap.insert m nd0).2 h)
            (Some (SlotMap.insert m nd0).1) tl
            (((SlotMap.insert m nd0).1, DList.value nd0) :: kxs)
      | None =>
          wf fwd bwd (SlotMap.insert m nd0).2
            (Some (SlotMap.insert m nd0).1) (Some (SlotMap.insert m nd0).1)
            (((SlotMap.insert m nd0).1, DList.value nd0) :: kxs)
      end
  | None =>
      wf fwd bwd (SlotMap.insert m nd0).2
        (Some (SlotMap.insert m nd0).1) (Some (SlotMap.insert m nd0).1)
        (((SlotMap.insert m nd0).1, DList.value nd0) :: kxs)
  end.
Proof.
  intros (Hf & Hb & Hnd & Hev & Hown) Hfwd0 Hbwd0 Hfv Hff Hfb.
  destruct (insert_new_key m nd0) as (Hfresh & Hnew & Hevk).
  pose proof (grows_insert m nd0) as Hgrow.
  set (k := (SlotMap.insert m nd0).1) in *.
  set (m1 := (SlotMap.insert m nd0).2) in *.
  assert (k ∉ kxs.*1) as Hnotin.
  { intros Hin. destruct (seg_valid_key _ _ _ _ _ _ Hf Hin) as [nd Hk]. congruence. }
  assert (∀ k' nd', k' ∈ kxs.*1 → SlotMap.get m k' = Some nd' →
            SlotMap.get m1 k' = Some nd') as Hkeep.
  { intros k' nd' Hin Hk'. apply get_insert_keep; [done|]. by apply Hev. }
  assert (∀ k', k' ∈ ((k, DList.value nd0) :: kxs).*1 → Z.even k'.1 = true)
    as Hev'.
  { intros k'. rewrite fmap_cons. intros [->|?]%elem_of_cons; [done|by apply Hev]. }
  assert (NoDup ((k, DList.value nd0) :: kxs).*1) as Hnd'.
  { rewrite fmap_cons. by apply NoDup_cons. }
  assert (∀ k' nd', SlotMap.get m1 k' = Some nd' → Z.even k'.1 = true →
            k' ∈ ((k, DList.value nd0) :: kxs).*1) as Hown'.
  { intros k' nd' Hk' Hevk'. rewrite fmap_cons.
    destruct (insert_owned _ _ _ _ Hk') as [->|Hold]; [by left|].
    right. by eapply Hown. }
  destruct kxs as [|[h y] rest].
  - (* no first node: the end link [hd] leads nowhere *)
    simpl in Hf, Hb.
    assert (wf fwd bwd m1 (Some k) (Some k) [(k, DList.value nd0)]) as Hwf.
    { split_and!; [| |done..].
      - simpl. split; [done|]. exists nd0. split_and!; [done..|].
        rewrite Hfwd0. by eapply gone_grows.
      - simpl. split; [done|]. exists nd0. split_and!; [done..|].
        by rewrite Hbwd0. }
    destruct hd as [h|]; [|done].
    rewrite (dead_get m1 h); [done|]. by eapply dead_grows.
  - (* the old first node gets its backward link *)
    simpl in Hf. destruct Hf as (-> & ndh & Hh & Hy & Hf).
    assert (h ∈ ((h, y) :: rest).*1) as Hhin by (by left).
    rewrite (Hkeep h ndh Hhin Hh).
    assert (k ≠ h) as Hkh by (intros ->; done).
    assert (k.2 ≠ h.2) as Hidx.
    { intros Heq. apply Hkh. eapply valid_index; [exact Hnew| |done].
      by apply (Hkeep h ndh). }
    assert (∀ k' nd', k' ∈ ((h, y) :: rest).*1 → SlotMap.get m k' = Some nd' →
              ∃ nd'', SlotMap.get (upd f m1 h) k' = Some nd''
                      ∧ DList.value nd'' = DList.value nd'
                      ∧ fwd nd'' = fwd nd'
                      ∧ (k' ≠ h → bwd nd'' = bwd nd')) as Hkeep2.
    { intros k' nd' Hin Hk'. pose proof (Hkeep _ _ Hin Hk') as Hk1.
      destruct (decide (k'.2 = h.2)) as [Heq|Hne].
      - assert (k' = h) as -> by (eapply valid_index; [exact Hk'|exact Hh|done]).
        exists (f nd'). split_and!; [by apply get_upd_eq|done..].
      - exists nd'. rewrite get_upd_ne by done. done. }
    split_and!; [| |done|done|].
    + simpl. split; [done|]. exists nd0. split; [|split].
      * by rewrite get_upd_ne.
      * done.
      * rewrite Hfwd0. split; [done|].
        destruct (Hkeep2 h ndh Hhin Hh) as (ndh' & Hh' & Hvh & Hfh & _).
        exists ndh'. split_and!; [done|congruence|]. rewrite Hfh.
        eapply seg_frame; [| |exact Hf].
        -- intros k' nd' Hin Hk'.
           destruct (Hkeep2 k' nd') as (nd'' & ? & ? & ? & _); [by right|done|].
           by exists nd''.
        -- intros s Hs. eapply gone_grows; [|exact Hs].
           eapply grows_trans; [exact Hgrow|apply grows_upd].
    + rewrite !reverse_cons. rewrite reverse_cons in Hb.
      rewrite fmap_cons in Hnd. apply NoDup_cons in Hnd as [Hhnot _].
      simpl in Hhnot.
      apply seg_app in Hb. rewrite <- app_assoc. apply seg_app.
      eapply seg_frame; [| |exact Hb].
      * intros k' nd' Hin Hk'. rewrite fmap_reverse, elem_of_reverse in Hin.
        destruct (Hkeep2 k' nd') as (nd'' & ? & ? & _ & Hbk); [by right|done|].
        exists nd''. split_and!; [done..|]. apply Hbk. by intros ->.
      * simpl. intros s (-> & ndh2 & Hh2 & Hy2 & _). split; [done|].
        rewrite Hh in Hh2. injection Hh2 as <-.
        exists (f ndh). split; [|split].
        -- apply get_upd_eq. by apply (Hkeep h ndh).
        -- by rewrite Hfv.
        -- rewrite Hfb. split; [done|]. exists nd0. split; [|split].
           ++ by rewrite get_upd_ne.
           ++ done.
           ++ by rewrite Hbwd0.
    + intros k' nd' Hk' Hevk'.
      destruct (get_upd_Some _ _ _ _ _ Hk') as [nd1 Hk1].
      by eapply Hown'.
Qed.

(** *** Unlinking a node *)

Lemma get_upd_keep f m h k nd :
  SlotMap.get m k = Some nd →
  ∃ nd', SlotMap.get (upd f m h) k = Some nd' ∧ (nd' = nd ∨ nd' = f nd).
Proof.
  intros Hk. destruct (decide (k.2 = h.2)) as [Heq|Hne].
  - exists (f nd). split; [|by right].
    apply valid_lookup. apply valid_lookup in Hk. unfold upd.
    rewrite <- Heq, list_lookup_alter_eq, Hk. done.
  - exists nd. split; [|by left]. by rewrite get_upd_ne.
Qed.

(** An assignment to other fields does not disturb a segment. *)
Lemma seg_upd sel f m h start kxs (P P' : option (Z * nat) → Prop) :
  (∀ nd, DList.value (f nd) = DList.value nd) →
  (∀ nd, sel (f nd) = sel nd) →
  (∀ s, P s → P' s) →
  seg sel m start kxs P → seg sel (upd f m h) start kxs P'.
Proof.
  intros Hfv Hfs HP. apply seg_frame; [|done].
  intros k nd _ Hk.
  destruct (get_upd_keep f m h k nd Hk) as (nd' & Hk' & [->| ->]).
  - by exists nd.
  - by exists (f nd).
Qed.

Lemma seg_stop sel m start kxs (P : option (Z * nat) → Prop) :
  seg sel m start kxs P → ∃ s, P s.
Proof.
  revert start. induction kxs as [|[k x] rest IH]; intros start; simpl; [eauto|].
  intros (_ & nd & _ & _ & Hseg). eauto.
Qed.

(** In a segment through [pre], [k], [post]: once the store has dropped [k]
    and kept the others, giving the node before [k] the forward link of [k]
    (or starting from that link, when there is no node before) leaves a
    segment through [pre], [post]. The node before [k] is found through the
    backward link of [k], as [remove] does. *)
Lemma seg_bypass fwd bwd (f : @DList.Node T → @DList.Node T)
    m0 m hd pre k x post nd :
  seg fwd m0 hd (pre ++ (k, x) :: post) (gone m0) →
  SlotMap.get m0 k = Some nd →
  seg bwd m0 (bwd nd) (reverse pre) (gone m0) →
  NoDup (pre ++ (k, x) :: post).*1 →
  grows m0 m →
  (∀ k' nd', k' ∈ (pre ++ post).*1 → SlotMap.get m0 k' = Some nd' →
     ∃ nd'', SlotMap.get m k' = Some nd''
             ∧ DList.value nd'' = DList.value nd' ∧ fwd nd'' = fwd nd') →
  (∀ nd', DList.value (f nd') = DList.value nd') →
  (∀ nd', fwd (f nd') = fwd nd) →
  ∀ m' hd',
    match bwd nd with
    | Some p =>
        match SlotMap.get m p with
        | Some _ => (upd f m p, hd)
        | None => (m, fwd nd)
        end
    | None => (m, fwd nd)
    end = (m', hd') →
    seg fwd m' hd' (pre ++ post) (gone m').
Proof.
  intros Hf Hk Hb Hnd Hgrow Hkeep Hfv Hff m' hd' Hstep.
  destruct pre as [|[p xp] pre' _] using rev_ind.
  - (* [k] is first *)
    simpl in *. destruct Hf as (-> & nd1 & Hk1 & _ & Hf).
    rewrite Hk in Hk1. injection Hk1 as <-.
    assert ((m', hd') = (m, fwd nd)) as [= -> ->].
    { rewrite <- Hstep. destruct (bwd nd) as [p|]; [|done].
      rewrite (dead_get m p); [done|]. by eapply dead_grows. }
    eapply seg_frame; [exact Hkeep| |exact Hf].
    intros s. by apply gone_grows.
  - (* [p] is the node before [k] *)
    rewrite reverse_snoc in Hb. simpl in Hb.
    destruct Hb as (Hbwd & ndp & Hp & _ & _).
    rewrite <- app_assoc in Hf, Hnd. simpl in Hf, Hnd.
    rewrite <- app_assoc in Hkeep |- *. simpl in Hkeep |- *.
    rewrite fmap_app in Hnd. simpl in Hnd.
    apply NoDup_app in Hnd as (Hnd1 & Hnd2 & Hnd3).
    apply NoDup_cons in Hnd3 as [Hp3 Hnd3].
    apply NoDup_cons in Hnd3 as [Hk3 Hnd3].
    assert (p ∈ (pre' ++ (p, xp) :: post).*1) as Hpin.
    { rewrite fmap_app. apply elem_of_app. right. by left. }
    destruct (Hkeep p ndp Hpin Hp) as (ndp' & Hp' & Hvp & _).
    assert ((m', hd') = (upd f m p, hd)) as [= -> ->].
    { rewrite <- Hstep, Hbwd, Hp'. done. }
    assert (∀ k' nd', k' ∈ (pre' ++ (p, xp) :: post).*1 → k' ≠ p →
              SlotMap.get m0 k' = Some nd' →
              ∃ nd'', SlotMap.get (upd f m p) k' = Some nd''
                      ∧ DList.value nd'' = DList.value nd'
                      ∧ fwd nd'' = fwd nd') as Hkeep'.
    { intros k' nd' Hin Hne Hk'.
      destruct (Hkeep k' nd' Hin Hk') as (nd'' & Hk'' & ? & ?).
      exists nd''. split_and!; [|done..].
      rewrite get_upd_ne; [done|]. intros Heq. apply Hne.
      eapply valid_index; [exact Hk''|exact Hp'|done]. }
    apply seg_app in Hf. apply seg_app.
    eapply seg_frame; [| |exact Hf].
    + intros k' nd' Hin Hk'. apply Hkeep'; [| |done].
      * rewrite fmap_app. apply elem_of_app. by left.
      * intros ->. apply (Hnd2 _ Hin). by left.
    + simpl. intros s (-> & ndp2 & Hp2 & Hxp & _ & ndk & Hk2 & _ & Hpost).
      rewrite Hk in Hk2. injection Hk2 as <-.
      rewrite Hp in Hp2. injection Hp2 as <-.
      split; [done|]. exists (f ndp'). split; [|split].
      * by apply get_upd_eq.
      * rewrite Hfv. congruence.
      * rewrite Hff. eapply seg_frame; [| |exact Hpost].
        -- intros k' nd' Hin Hk'. apply Hkeep'; [| |done].
           ++ rewrite fmap_app. apply elem_of_app. right. by right.
           ++ intros ->. apply Hp3. by right.
        -- intros s Hs. eapply gone_grows; [|exact Hs].
           eapply grows_trans; [exact Hgrow|apply grows_upd].
Qed.

(** *** The operations of the list *)

Lemma remove_dead_key m h : dead m h → SlotMap.remove m h = (None, m).
Proof.
  intros Hd%dead_get. destruct h as [g i]. by apply SlotMapSpec.remove_None.
Qed.

Lemma list_eta l :
  {| DList.map := DList.map l; DList.tail := DList.tail l;
     DList.head := DList.head l |} = l.
Proof. by destruct l. Qed.

(** A new list is well-formed and empty. *)
Lemma repr_new : repr (@DList.new T) [].
Proof.
  split; [|split; [|split; [|split]]]; simpl.
  - done.
  - done.
  - constructor.
  - intros k Hk. by apply elem_of_nil in Hk.
  - intros k nd Hk. apply valid_lookup in Hk. by rewrite lookup_nil in Hk.
Qed.

(** [push_head] puts the value in front, under the key it returns. *)
Lemma push_head_wf l kxs v :
  repr l kxs →
  repr (DList.push_head l v).2 (((DList.push_head l v).1, v) :: kxs).
Proof.
  intros Hrepr. unfold DList.push_head.
  set (nd0 := {| DList.value := v; DList.prev := None;
                 DList.next := DList.head l |}).
  pose proof (wf_push DList.next DList.prev
    (λ nd, {| DList.value := DList.value nd;
              DList.prev := Some (SlotMap.insert (DList.map l) nd0).1;
              DList.next := DList.next nd |})
    _ _ _ _ nd0 Hrepr eq_refl eq_refl
    (λ _, eq_refl) (λ _, eq_refl) (λ _, eq_refl)) as Hpush.
  destruct (SlotMap.insert (DList.map l) nd0) as [k m1]. simpl in Hpush.
  destruct (DList.head l) as [h|]; [|exact Hpush].
  destruct (SlotMap.get m1 h); exact Hpush.
Qed.

(** [push_tail] puts the value at the end, under the key it returns. *)
Lemma push_tail_wf l kxs v :
  repr l kxs →
  repr (DList.push_tail l v).2 (kxs ++ [((DList.push_tail l v).1, v)]).
Proof.
  intros Hrepr%wf_mirror. unfold DList.push_tail.
  set (nd0 := {| DList.value := v; DList.prev := DList.tail l;
                 DList.next := None |}).
  pose proof (wf_push DList.prev DList.next
    (λ nd, {| DList.value := DList.value nd;
              DList.prev := DList.prev nd;
              DList.next := Some (SlotMap.insert (DList.map l) nd0).1 |})
    _ _ _ _ nd0 Hrepr eq_refl eq_refl
    (λ _, eq_refl) (λ _, eq_refl) (λ _, eq_refl)) as Hpush.
  destruct (SlotMap.insert (DList.map l) nd0) as [k m1]. simpl in Hpush.
  assert (reverse ((k, v) :: reverse kxs) = kxs ++ [(k, v)]) as Hrev
    by (by rewrite reverse_cons, reverse_involutive).
  destruct (DList.tail l) as [t|]; [destruct (SlotMap.get m1 t)|];
    apply wf_mirror in Hpush; rewrite Hrev in Hpush; exact Hpush.
Qed.

(** [pop_head] on an empty list returns [null] and changes nothing; on a list
    that is not empty, with generations below 2^53, it returns the first value
    and leaves the rest. *)
Lemma pop_head_wf l kxs :
  repr l kxs →
  (∀ k, k ∈ kxs.*1 → (k.1 < SlotMap.max_generation)%Z) →
  (kxs = [] ∧ DList.pop_head l = (None, l))
  ∨ (∃ k x rest, kxs = (k, x) :: rest
       ∧ (DList.pop_head l).1 = Some x ∧ repr (DList.pop_head l).2 rest).
Proof.
  intros Hrepr Hmax. unfold DList.pop_head. destruct kxs as [|[k x] rest].
  - left. split; [done|]. destruct (wf_nil _ _ _ _ _ Hrepr) as [Hhd _].
    destruct l as [m tl [h|]]; simpl in *; [|done].
    by rewrite (remove_dead_key _ _ Hhd).
  - right. exists k, x, rest. split; [done|].
    assert (k.1 < SlotMap.max_generation)%Z as Hk1 by (apply Hmax; by left).
    destruct (wf_pop _ _ _ _ _ _ _ _ Hrepr Hk1) as (Hhd & nd & Hk & Hx & Hwf).
    rewrite Hhd. rewrite (remove_valid _ _ _ Hk Hk1) in Hwf |- *. simpl in *.
    split; [by rewrite Hx|exact Hwf].
Qed.

(** [pop_tail] on an empty list returns [null] and changes nothing; on a list
    that is not empty, with generations below 2^53, it returns the last value
    and leaves the rest. *)
Lemma pop_tail_wf l kxs :
  repr l kxs →
  (∀ k, k ∈ kxs.*1 → (k.1 < SlotMap.max_generation)%Z) →
  (kxs = [] ∧ DList.pop_tail l = (None, l))
  ∨ (∃ init k x, kxs = init ++ [(k, x)]
       ∧ (DList.pop_tail l).1 = Some x ∧ repr (DList.pop_tail l).2 init).
Proof.
  intros Hrepr Hmax. unfold DList.pop_tail.
  destruct kxs as [|[k x] init _] using rev_ind.
  - left. split; [done|]. destruct (wf_nil _ _ _ _ _ Hrepr) as [_ Htl].
    destruct l as [m [t|] hd]; simpl in *; [|done].
    by rewrite (remove_dead_key _ _ Htl).
  - right. exists init, k, x. split; [done|].
    assert (k.1 < SlotMap.max_generation)%Z as Hk1.
    { apply Hmax. rewrite fmap_app. apply elem_of_app. right. by left. }
    apply wf_mirror in Hrepr. rewrite reverse_snoc in Hrepr.
    destruct (wf_pop _ _ _ _ _ _ _ _ Hrepr Hk1) as (Htl & nd & Hk & Hx & Hwf).
    apply wf_mirror in Hwf. rewrite reverse_involutive in Hwf.
    rewrite Htl. rewrite (remove_valid _ _ _ Hk Hk1) in Hwf |- *. simpl in *.
    split; [by rewrite Hx|exact Hwf].
Qed.

(** What the list shows: [len] is the number of values, and [get] of the key
    of a value returns it. *)
Lemma len_get_wf l kxs :
  repr l kxs →
  DList.len l = length kxs
  ∧ (∀ k x, (k, x) ∈ kxs → DList.get l (Some k) = Some x).
Proof.
  intros (Hf & Hb & Hnd & Hev & Hown). split.
  - unfold DList.len. rewrite SlotMapLaws.arena_len_length.
    rewrite <- (length_fmap fst (SlotMap.iter (DList.map l))).
    rewrite <- (length_fmap fst kxs).
    apply Permutation_length, NoDup_Permutation; [|done|].
    + pose proof (SlotMapSpec.iter_from_ascending 0 (DList.map l)) as Hs.
      fold (SlotMap.iter (DList.map l)) in Hs.
      induction Hs as [|p ps Hs IH Hall]; [constructor|].
      rewrite fmap_cons. apply NoDup_cons. split; [|done].
      intros (q & Hq & Hin)%list_elem_of_fmap.
      rewrite Forall_forall in Hall. specialize (Hall _ Hin).
      rewrite Hq in Hall. lia.
    + intros k. split.
      * intros ([[g i] nd] & -> & Hin)%list_elem_of_fmap.
        apply SlotMapSpec.elem_of_iter in Hin as [Hk Hg].
        simpl. eapply (Hown (g, i)).
        -- apply SlotMapSpec.get_Some. exact Hk.
        -- by rewrite <- SlotMapSpec.even_generation_even.
      * intros Hin. destruct (seg_valid_key _ _ _ _ _ _ Hf Hin) as [nd Hk].
        apply list_elem_of_fmap. exists (k, nd). split; [done|].
        destruct k as [g i]. apply SlotMapSpec.elem_of_iter. split.
        -- by apply SlotMapSpec.get_Some.
        -- rewrite SlotMapSpec.even_generation_even. by apply (Hev (g, i)).
  - intros k x Hin. destruct (seg_valid _ _ _ _ _ _ _ Hf Hin) as (nd & Hk & Hx).
    simpl. by rewrite Hk, Hx.
Qed.

(** A key that leads nowhere ([null], or the key of a value that was taken
    out) is absent: [get] and [remove] return [null], and [remove] changes
    nothing. *)
Lemma gone_key_wf l key :
  gone (DList.map l) key →
  DList.get l key = None ∧ DList.remove l key = (None, l).
Proof.
  destruct key as [k|]; [|done]. simpl. intros Hd.
  rewrite (dead_get _ _ Hd), (remove_dead_key _ _ Hd).
  by rewrite list_eta.
Qed.

(** Removing by key: [remove] of the key of a value of a well-formed list,
    of a generation below 2^53 and wherever it stands, returns that value,
    and leaves a well-formed list of the values before and after it, in
    order. *)
Theorem remove_repr l pre k x post :
  repr l (pre ++ (k, x) :: post) →
  (k.1 < SlotMap.max_generation)%Z →
  (DList.remove l (Some k)).1 = Some x
  ∧ repr (DList.remove l (Some k)).2 (pre ++ post).
Proof.
  intros (Hf & Hb & Hnd & Hev & Hown) Hmax.
  set (m0 := DList.map l) in *.
  assert ((k, x) ∈ pre ++ (k, x) :: post) as Hkin
    by (apply elem_of_app; right; by left).
  destruct (seg_valid _ _ _ _ _ _ _ Hf Hkin) as (nd & Hk & Hx).
  assert (Z.even k.1 = true) as Hevk.
  { apply Hev. apply list_elem_of_fmap. by exists (k, x). }
  (* the two neighbours of [k], as its own links give them *)
  rewrite reverse_app, reverse_cons, <- app_assoc in Hb. simpl in Hb.
  assert (seg DList.prev m0 (DList.prev nd) (reverse pre) (gone m0)) as Hback.
  { apply seg_app in Hb. destruct (seg_stop _ _ _ _ _ Hb) as (s & _ & nd' & Hk' & _ & Hs).
    rewrite Hk in Hk'. by injection Hk' as <-. }
  assert (seg DList.next m0 (DList.next nd) post (gone m0)) as Hforth.
  { pose proof Hf as Hf'. apply seg_app in Hf'.
    destruct (seg_stop _ _ _ _ _ Hf') as (s & _ & nd' & Hk' & _ & Hs).
    rewrite Hk in Hk'. by injection Hk' as <-. }
  (* the keys *)
  assert (NoDup (pre ++ post).*1 ∧ k ∉ (pre ++ post).*1) as [Hnd' Hknot].
  { rewrite fmap_app in Hnd |- *. simpl in Hnd.
    apply NoDup_app in Hnd as (Hnd1 & Hnd2 & Hnd3).
    apply NoDup_cons in Hnd3 as [Hk3 Hnd3]. split.
    - apply NoDup_app. split_and!; [done| |done].
      intros k' Hin1 Hin2. apply (Hnd2 _ Hin1). by right.
    - intros [Hin|Hin]%elem_of_app; [|done]. apply (Hnd2 _ Hin). by left. }
  assert (∀ k', k' ∈ (pre ++ post).*1 → k' ∈ (pre ++ (k, x) :: post).*1) as Hsub.
  { intros k'. rewrite !fmap_app, !elem_of_app. simpl.
    intros [?|?]; [by left|right; by right]. }
  (* the store after the removal *)
  set (m := (SlotMap.remove m0 k).2).
  assert (SlotMap.remove m0 k = (Some nd, m)) as Hrem.
  { unfold m. by rewrite (remove_valid _ _ _ Hk Hmax). }
  assert (grows m0 m) as Hgrow by apply grows_remove.
  assert (∀ k' nd', k' ∈ (pre ++ post).*1 → SlotMap.get m0 k' = Some nd' →
            SlotMap.get m k' = Some nd') as Hkeep.
  { intros k' nd' Hin Hk'. apply get_remove_keep; [done| |].
    - by apply Hev, Hsub.
    - by intros ->. }
  unfold DList.remove. fold m0. rewrite Hrem.
  (* the node before [k], or the head *)
  set (f1 := λ nd' : @DList.Node T,
         {| DList.value := DList.value nd'; DList.prev := DList.prev nd';
            DList.next := DList.next nd |}).
  destruct (match DList.prev nd with
            | Some p => match SlotMap.get m p with
                        | Some _ => (DList.set_next m p (DList.next nd), DList.head l)
                        | None => (m, DList.next nd)
                        end
            | None => (m, DList.next nd)
            end) as [m1 head1] eqn:E1.
  assert (seg DList.next m1 head1 (pre ++ post) (gone m1)) as Hf1.
  { eapply (seg_bypass DList.next DList.prev f1 m0 m);
      [exact Hf|exact Hk|exact Hback|exact Hnd|exact Hgrow| |done|done|exact E1].
    intros k' nd' Hin Hk'. exists nd'. split_and!; [by apply Hkeep|done..]. }
  assert (m1 = m ∨ ∃ p, m1 = upd f1 m p) as Hm1.
  { destruct (DList.prev nd) as [p|]; [destruct (SlotMap.get m p)|];
      injection E1 as <- <-; eauto. }
  assert (grows m m1) as Hgrow1.
  { destruct Hm1 as [->|[p ->]]; [apply grows_refl|apply grows_upd]. }
  assert (∀ k' nd', SlotMap.get m k' = Some nd' →
            ∃ nd'', SlotMap.get m1 k' = Some nd''
                    ∧ DList.value nd'' = DList.value nd'
                    ∧ DList.prev nd'' = DList.prev nd') as Hkeep1.
  { intros k' nd' Hk'. destruct Hm1 as [->|[p ->]]; [by exists nd'|].
    destruct (get_upd_keep f1 m p k' nd' Hk') as (nd'' & Hk'' & [->| ->]);
      [by exists nd'|by exists (f1 nd')]. }
  assert (∀ k' nd', SlotMap.get m1 k' = Some nd' →
            ∃ nd'', SlotMap.get m k' = Some nd'') as Hback1.
  { intros k' nd' Hk'. destruct Hm1 as [->|[p ->]]; [by exists nd'|].
    by eapply get_upd_Some. }
  (* the node after [k], or the tail *)
  set (f2 := λ nd' : @DList.Node T,
         {| DList.value := DList.value nd'; DList.prev := DList.prev nd;
            DList.next := DList.next nd' |}).
  destruct (match DList.next nd with
            | Some n => match SlotMap.get m1 n with
                        | Some _ => (DList.set_prev m1 n (DList.prev nd), DList.tail l)
                        | None => (m1, DList.prev nd)
                        end
            | None => (m1, DList.prev nd)
            end) as [m2 tail2] eqn:E2.
  assert (seg DList.prev m2 tail2 (reverse post ++ reverse pre) (gone m2)) as Hb2.
  { eapply (seg_bypass DList.prev DList.next f2 m0 m1);
      [exact Hb|exact Hk| | | | |done|done|exact E2].
    - by rewrite reverse_involutive.
    - assert (reverse post ++ (k, x) :: reverse pre
              = reverse (pre ++ (k, x) :: post)) as ->
        by (by rewrite reverse_app, reverse_cons, <- app_assoc).
      by rewrite fmap_reverse, reverse_Permutation.
    - by eapply grows_trans.
    - intros k' nd' Hin Hk'. apply Hkeep1, Hkeep; [|done].
      rewrite <- reverse_app, fmap_reverse, elem_of_reverse in Hin.
      done. }
  assert (m2 = m1 ∨ ∃ n, m2 = upd f2 m1 n) as Hm2.
  { destruct (DList.next nd) as [n|]; [destruct (SlotMap.get m1 n)|];
      injection E2 as <- <-; eauto. }
  simpl. split; [by rewrite Hx|].
  split; [|split; [|split; [|split]]]; simpl.
  - destruct Hm2 as [->|[n ->]]; [done|].
    eapply seg_upd; [done|done| |exact Hf1].
    intros s. apply gone_grows, grows_upd.
  - by rewrite reverse_app.
  - done.
  - intros k' Hin. by apply Hev, Hsub.
  - intros k' nd' Hk' Hev'.
    assert (∃ nd1, SlotMap.get m1 k' = Some nd1) as [nd1 Hk1].
    { destruct Hm2 as [->|[n ->]]; [by exists nd'|]. by eapply get_upd_Some. }
    destruct (Hback1 _ _ Hk1) as [nd2 Hk2].
    destruct (remove_owned _ _ _ _ _ Hk Hevk Hmax Hk2 Hev') as [Hold Hne].
    specialize (Hown _ _ Hold Hev').
    rewrite !fmap_app, !elem_of_app in Hown |- *. simpl in Hown.
    destruct Hown as [?|[->|?]%elem_of_cons]; [by left|done|by right].
Qed.

(** *** The list as a double-ended queue *)

(** Every operation raises the generations by one at most. *)
Lemma bounded_insert B m nd0 :
  (0 ≤ B)%Z → bounded B m → bounded (B + 1) (SlotMap.insert m nd0).2.
Proof.
  intros HB Hm i s. destruct (SlotMapSpec.insert_cases m nd0)
    as [(i0 & g0 & c0 & Hi0 & _ & _ & ->)|[_ ->]]; simpl.
  - pose proof (Hm _ _ Hi0) as H0; simpl in H0.
    destruct (decide (i = i0)) as [->|Hne].
    + rewrite list_lookup_insert_eq by (by eapply lookup_lt_Some).
      intros [= <-]; simpl. lia.
    + rewrite list_lookup_insert_ne by done. intros Hi.
      pose proof (Hm _ _ Hi). lia.
  - rewrite lookup_app. destruct (m !! i) as [s'|] eqn:Ei.
    + intros [= <-]. pose proof (Hm _ _ Ei). lia.
    + destruct (i - length m) as [|n]; simpl; [|done].
      intros [= <-]; simpl. lia.
Qed.

Lemma bounded_remove B m k : bounded B m → bounded (B + 1) (SlotMap.remove m k).2.
Proof.
  intros Hm i s. destruct k as [g j].
  destruct (SlotMap.remove m (g, j)) as [[x|] m'] eqn:Er; simpl.
  - apply SlotMapSpec.remove_Some in Er as [Hj ->].
    pose proof (Hm _ _ Hj) as H0; simpl in H0.
    pose proof (SlotMapSpec.number_succ_bounds g) as Hs.
    destruct (decide (i = j)) as [->|Hne].
    + rewrite list_lookup_insert_eq by (by eapply lookup_lt_Some).
      intros [= <-]; simpl. lia.
    + rewrite list_lookup_insert_ne by done. intros Hi.
      pose proof (Hm _ _ Hi). lia.
  - apply SlotMapSpec.remove_None in Er as [_ ->]. intros Hi.
    pose proof (Hm _ _ Hi). lia.
Qed.

Lemma bounded_upd B f m h : bounded B m → bounded B (upd f m h).
Proof.
  intros Hm i s. unfold upd. destruct (decide (h.2 = i)) as [<-|Hne].
  - rewrite list_lookup_alter_eq.
    destruct (m !! h.2) as [s'|] eqn:E; [|done].
    intros [= <-]; simpl. apply (Hm _ _ E).
  - rewrite list_lookup_alter_ne by done. apply Hm.
Qed.

Lemma bounded_key B l kxs k :
  repr l kxs → bounded B (DList.map l) → k ∈ kxs.*1 → (k.1 ≤ B)%Z.
Proof.
  intros (Hf & _) Hm Hin.
  destruct (seg_valid_key _ _ _ _ _ _ Hf Hin) as [nd Hk].
  apply valid_lookup in Hk. apply (Hm _ _ Hk).
Qed.

Lemma bounded_push_head B l v :
  (0 ≤ B)%Z → bounded B (DList.map l) →
  bounded (B + 1) (DList.map (DList.push_head l v).2).
Proof.
  intros HB Hm. unfold DList.push_head.
  pose proof (bounded_insert B (DList.map l)
    {| DList.value := v; DList.prev := None; DList.next := DList.head l |}
    HB Hm) as Hins.
  destruct (SlotMap.insert _ _) as [k m1]. simpl in Hins.
  destruct (DList.head l) as [h|]; [|done].
  destruct (SlotMap.get m1 h); [|done]. simpl. rewrite set_prev_upd.
  by apply bounded_upd.
Qed.

Lemma bounded_push_tail B l v :
  (0 ≤ B)%Z → bounded B (DList.map l) →
  bounded (B + 1) (DList.map (DList.push_tail l v).2).
Proof.
  intros HB Hm. unfold DList.push_tail.
  pose proof (bounded_insert B (DList.map l)
    {| DList.value := v; DList.prev := DList.tail l; DList.next := None |}
    HB Hm) as Hins.
  destruct (SlotMap.insert _ _) as [k m1]. simpl in Hins.
  destruct (DList.tail l) as [t|]; [|done].
  destruct (SlotMap.get m1 t); [|done]. simpl. rewrite set_next_upd.
  by apply bounded_upd.
Qed.

Lemma bounded_weaken B m : bounded B m → bounded (B + 1) m.
Proof. intros Hm i s Hi. pose proof (Hm _ _ Hi). lia. Qed.

Lemma bounded_pop_head B l :
  bounded B (DList.map l) → bounded (B + 1) (DList.map (DList.pop_head l).2).
Proof.
  intros Hm. unfold DList.pop_head.
  destruct (DList.head l) as [h|]; [|by apply bounded_weaken].
  pose proof (bounded_remove B _ h Hm) as Hrem.
  by destruct (SlotMap.remove (DList.map l) h) as [[nd|] m'].
Qed.

Lemma bounded_pop_tail B l :
  bounded B (DList.map l) → bounded (B + 1) (DList.map (DList.pop_tail l).2).
Proof.
  intros Hm. unfold DList.pop_tail.
  destruct (DList.tail l) as [t|]; [|by apply bounded_weaken].
  pose proof (bounded_remove B _ t Hm) as Hrem.
  by destruct (SlotMap.remove (DList.map l) t) as [[nd|] m'].
Qed.

Lemma step_refines l kxs (o : @Deque.op T) B :
  repr l kxs →
  (0 ≤ B < SlotMap.max_generation)%Z → bounded B (DList.map l) →
  (Deque.step l o).1 = (Deque.model_step kxs.*2 o).1
  ∧ bounded (B + 1) (DList.map (Deque.step l o).2)
  ∧ ∃ kxs', repr (Deque.step l o).2 kxs'
            ∧ kxs'.*2 = (Deque.model_step kxs.*2 o).2.
Proof.
  intros Hrepr HB Hm.
  assert (∀ k, k ∈ kxs.*1 → (k.1 < SlotMap.max_generation)%Z) as Hmax.
  { intros k Hin. pose proof (bounded_key B l kxs k Hrepr Hm Hin). lia. }
  destruct o as [v|v| | |]; simpl.
  - split; [done|]. split; [apply bounded_push_head; [lia|done]|].
    eexists. split; [by apply push_head_wf|done].
  - split; [done|]. split; [apply bounded_push_tail; [lia|done]|].
    eexists. split; [by apply push_tail_wf|]. by rewrite fmap_app.
  - pose proof (bounded_pop_head B l Hm) as Hb.
    destruct (pop_head_wf l kxs Hrepr Hmax)
      as [[-> Heq]|(k & x & rest & -> & Heq & Hrest)]; simpl.
    + rewrite Heq. split; [done|]. split; [by rewrite Heq in Hb|]. by exists [].
    + rewrite Heq. split; [done|]. split; [done|]. by exists rest.
  - pose proof (bounded_pop_tail B l Hm) as Hb.
    destruct (pop_tail_wf l kxs Hrepr Hmax)
      as [[-> Heq]|(init & k & x & -> & Heq & Hinit)]; simpl.
    + rewrite Heq. split; [done|]. split; [by rewrite Heq in Hb|]. by exists [].
    + rewrite Heq, fmap_app. simpl. rewrite last_snoc, removelast_last.
      split; [done|]. split; [done|]. by exists init.
  - destruct (len_get_wf l kxs Hrepr) as [-> _].
    rewrite length_fmap. split; [done|]. split; [by apply bounded_weaken|].
    by exists kxs.
Qed.

(** *** The contract of the list *)

(** Pushing: on a well-formed list [push_head] puts the value in front and
    [push_tail] at the end, each under the key it returns, which is the key
    of no value already in the list, and the list stays well-formed. *)
Theorem push_repr l kxs v :
  repr l kxs →
  (repr (DList.push_head l v).2 (((DList.push_head l v).1, v) :: kxs)
   ∧ (DList.push_head l v).1 ∉ kxs.*1)
  ∧ (repr (DList.push_tail l v).2 (kxs ++ [((DList.push_tail l v).1, v)])
     ∧ (DList.push_tail l v).1 ∉ kxs.*1).
Proof.
  intros Hrepr. split.
  - pose proof (push_head_wf l kxs v Hrepr) as Hpush. split; [done|].
    destruct Hpush as (_ & _ & Hnd & _). rewrite fmap_cons in Hnd.
    by apply NoDup_cons in Hnd as [? _].
  - pose proof (push_tail_wf l kxs v Hrepr) as Hpush. split; [done|].
    destruct Hpush as (_ & _ & Hnd & _). rewrite fmap_app in Hnd.
    apply NoDup_app in Hnd as (_ & Hdis & _). intros Hin.
    apply (Hdis _ Hin). by left.
Qed.

(** Popping: on an empty well-formed list [pop_head] and [pop_tail] return
    [null] and change nothing, also when [head] and [tail] still hold keys of
    values that were taken out; otherwise, when the generations of the keys
    are below 2^53, [pop_head] returns the first value and [pop_tail] the
    last, and the list keeps the others, in order. *)
Theorem pop_repr l kxs :
  repr l kxs →
  (∀ k, k ∈ kxs.*1 → (k.1 < SlotMap.max_generation)%Z) →
  (kxs = [] → DList.pop_head l = (None, l) ∧ DList.pop_tail l = (None, l))
  ∧ (∀ k x rest, kxs = (k, x) :: rest →
       (DList.pop_head l).1 = Some x ∧ repr (DList.pop_head l).2 rest)
  ∧ (∀ init k x, kxs = init ++ [(k, x)] →
       (DList.pop_tail l).1 = Some x ∧ repr (DList.pop_tail l).2 init).
Proof.
  intros Hrepr Hmax. split_and!.
  - intros ->.
    destruct (pop_head_wf l [] Hrepr Hmax) as [[_ ->]|(? & ? & ? & ? & _)]; [|done].
    destruct (pop_tail_wf l [] Hrepr Hmax) as [[_ ->]|(i & ? & ? & Hi & _)]; [done|].
    by destruct i.
  - intros k x rest ->.
    destruct (pop_head_wf _ _ Hrepr Hmax)
      as [[? _]|(k' & x' & rest' & [= <- <- <-] & ? & ?)]; done.
  - intros init k x ->.
    destruct (pop_tail_wf _ _ Hrepr Hmax)
      as [[Hnil _]|(init' & k' & x' & Heq & ? & ?)].
    + by destruct init.
    + apply app_inj_tail in Heq as [<- [= <- <-]]. done.
Qed.

(** Looking: on a well-formed list [len] is the number of values and [get]
    of the key of a value returns it; for a key that leads nowhere ([null], or
    the key of a value that was taken out) [get] and [remove] return [null]
    and [remove] changes nothing. *)
Theorem observe_repr l kxs :
  repr l kxs →
  DList.len l = length kxs
  ∧ (∀ k x, (k, x) ∈ kxs → DList.get l (Some k) = Some x)
  ∧ (∀ key, gone (DList.map l) key →
       DList.get l key = None ∧ DList.remove l key = (None, l)).
Proof.
  intros Hrepr. destruct (len_get_wf l kxs Hrepr) as [Hlen Hget].
  split_and!; [done..|]. intros key. apply gone_key_wf.
Qed.

(** The list is a double-ended queue as long as the generations stay below
    2^53: on a well-formed list that holds the values [kxs.*2] and has no
    generation above [B], every sequence of at most [2^53 - B] operations
    [push_head], [push_tail], [pop_head], [pop_tail] and [len] shows the
    caller what the same sequence shows on the plain sequence of values. On a
    new list [B] is 0. *)
Theorem deque_refinement (ops : list (@Deque.op T)) l kxs B :
  repr l kxs →
  (0 ≤ B)%Z → bounded B (DList.map l) →
  (B + Z.of_nat (length ops) ≤ SlotMap.max_generation)%Z →
  Deque.run ops l = Deque.model_run ops kxs.*2.
Proof.
  revert l kxs B. induction ops as [|o ops IH]; intros l kxs B Hrepr HB Hm Hlen;
    simpl; [done|].
  simpl in Hlen.
  destruct (step_refines l kxs o B Hrepr) as (-> & Hm' & kxs' & Hrepr' & <-);
    [lia|done|].
  f_equal. apply (IH _ _ (B + 1)%Z); [done|lia|done|lia].
Qed.

End DListSpec.

(** *** The contract at concrete lists *)

(** The list that one [push_head 5] makes of a new list. *)
Lemma repr_one :
  repr {| DList.map := [(0%Z, {| DList.value := 5; DList.prev := None;
                                 DList.next := None |})];
          DList.tail := Some (0%Z, 0); DList.head := Some (0%Z, 0) |}
       [((0%Z, 0), 5)].
Proof.
  split; [|split; [|split; [|split]]]; simpl.
  - split; [done|]. eexists. by split_and!.
  - split; [done|]. eexists. by split_and!.
  - apply NoDup_singleton.
  - intros k ->%list_elem_of_singleton. done.
  - intros [g [|i]] nd Hk Hev; apply SlotMapSpec.get_Some in Hk; [|done].
    injection Hk as <- _. apply list_elem_of_singleton. done.
Qed.

(** The list that [push_head 5], [push_tail 6], [push_tail 7] make of a new
    list, and the bound on its keys. *)
Lemma repr_three :
  repr (DList.push_tail (DList.push_tail (DList.push_head DList.new 5).2 6).2 7).2
       [((0%Z, 0), 5); ((0%Z, 1), 6); ((0%Z, 2), 7)].
Proof.
  pose proof (push_head_wf DList.new [] 5 repr_new) as H1.
  pose proof (push_tail_wf _ _ 6 H1) as H2.
  exact (push_tail_wf _ _ 7 H2).
Qed.

Lemma keys_three_below :
  ∀ k : Z * nat,
    k ∈ [((0%Z, 0), 5); ((0%Z, 1), 6); ((0%Z, 2), 7)].*1 →
    (k.1 < SlotMap.max_generation)%Z.
Proof.
  intros k Hin. simpl in Hin.
  repeat (apply elem_of_cons in Hin as [->|Hin]; [reflexivity|]).
  by apply elem_of_nil in Hin.
Qed.

Lemma push_repr_witness :
  repr (DList.push_tail (DList.push_tail (DList.push_head DList.new 5).2 6).2 7).2
       [((0%Z, 0), 5); ((0%Z, 1), 6); ((0%Z, 2), 7)]
  ∧ repr
      (DList.push_head
         (DList.push_tail (DList.push_tail (DList.push_head DList.new 5).2 6).2 7).2
         4).2
      [((0%Z, 3), 4); ((0%Z, 0), 5); ((0%Z, 1), 6); ((0%Z, 2), 7)]
  ∧ repr
      (DList.push_tail
         (DList.push_tail (DList.push_tail (DList.push_head DList.new 5).2 6).2 7).2
         8).2
      [((0%Z, 0), 5); ((0%Z, 1), 6); ((0%Z, 2), 7); ((0%Z, 3), 8)].
Proof.
  split; [exact repr_three|].
  destruct (push_repr _ _ 4 repr_three) as [[Hhead _] _].
  destruct (push_repr _ _ 8 repr_three) as [_ [Htail _]].
  split; [exact Hhead|exact Htail].
Defined.

Lemma pop_repr_witness :
  repr (DList.push_tail (DList.push_tail (DList.push_head DList.new 5).2 6).2 7).2
       [((0%Z, 0), 5); ((0%Z, 1), 6); ((0%Z, 2), 7)]
  ∧ (∀ k : Z * nat,
       k ∈ [((0%Z, 0), 5); ((0%Z, 1), 6); ((0%Z, 2), 7)].*1 →
       (k.1 < SlotMap.max_generation)%Z)
  ∧ (DList.pop_head
       (DList.push_tail (DList.push_tail (DList.push_head DList.new 5).2 6).2 7).2).1
    = Some 5
  ∧ (DList.pop_tail
       (DList.push_tail (DList.push_tail (DList.push_head DList.new 5).2 6).2 7).2).1
    = Some 7.
Proof.
  split; [exact repr_three|]. split; [exact keys_three_below|].
  destruct (pop_repr _ _ repr_three keys_three_below) as (_ & Hhead & Htail).
  split.
  - exact (proj1 (Hhead (0%Z, 0) 5 [((0%Z, 1), 6); ((0%Z, 2), 7)] eq_refl)).
  - exact (proj1 (Htail [((0%Z, 0), 5); ((0%Z, 1), 6)] (0%Z, 2) 7 eq_refl)).
Defined.

Lemma remove_repr_witness :
  repr (DList.push_tail (DList.push_tail (DList.push_head DList.new 5).2 6).2 7).2
       ([((0%Z, 0), 5)] ++ ((0%Z, 1), 6) :: [((0%Z, 2), 7)])
  ∧ ((0%Z, 1).1 < SlotMap.max_generation)%Z
  ∧ (DList.remove
       (DList.push_tail (DList.push_tail (DList.push_head DList.new 5).2 6).2 7).2
       (Some (0%Z, 1))).1 = Some 6
  ∧ repr
      (DList.remove
         (DList.push_tail (DList.push_tail (DList.push_head DList.new 5).2 6).2 7).2
         (Some (0%Z, 1))).2
      ([((0%Z, 0), 5)] ++ [((0%Z, 2), 7)]).
Proof.
  split; [exact repr_three|]. split; [reflexivity|].
  exact (remove_repr _ [((0%Z, 0), 5)] (0%Z, 1) 6 [((0%Z, 2), 7)]
           repr_three eq_refl).
Defined.

Lemma observe_repr_witness :
  repr (DList.push_tail (DList.push_tail (DList.push_head DList.new 5).2 6).2 7).2
       [((0%Z, 0), 5); ((0%Z, 1), 6); ((0%Z, 2), 7)]
  ∧ DList.len
      (DList.push_tail (DList.push_tail (DList.push_head DList.new 5).2 6).2 7).2
    = 3.
Proof.
  split; [exact repr_three|].
  exact (proj1 (observe_repr _ _ repr_three)).
Defined.

Lemma deque_refinement_witness :
  repr (@DList.new nat) []
  ∧ (0 ≤ 0)%Z
  ∧ bounded 0 (DList.map (@DList.new nat))
  ∧ (0 + Z.of_nat
           (length [Deque.PushHead 5; Deque.PushTail 6; Deque.PopHead;
                    Deque.Len; Deque.PopTail; Deque.PopTail])
     ≤ SlotMap.max_generation)%Z
  ∧ Deque.run [Deque.PushHead 5; Deque.PushTail 6; Deque.PopHead; Deque.Len;
               Deque.PopTail; Deque.PopTail] DList.new
    = Deque.model_run
        [Deque.PushHead 5; Deque.PushTail 6; Deque.PopHead; Deque.Len;
         Deque.PopTail; Deque.PopTail] ([] : list (Z * nat * nat)).*2.
Proof.
  assert (bounded 0 (DList.map (@DList.new nat))) as Hb.
  { intros i s Hi. simpl in Hi. by rewrite lookup_nil in Hi. }
  split; [exact repr_new|]. split; [done|]. split; [exact Hb|].
  split; [by vm_compute|].
  apply (deque_refinement _ _ _ 0%Z repr_new); [done|exact Hb|by vm_compute].
Defined.

End DListSpec.
